(** * Armada: job-id extraction, cluster resource accounting, server wiring

    A shallow embedding of three pieces of the scheduler:
    - [events.JobIdFromEvent] (package events),
    - the cluster utilisation service (package service),
    - [armada.Serve] and its shutdown closure (package armada).

    Go values are embedded as follows.  A Go map is a [gmap]; a slice is a
    [list]; a [(T, error)] return is a pair whose second component is
    [None] for a nil error; a nilable pointer is an [option].  Code that
    logs, calls out of the process, panics or exits runs in the trace
    monad [Run] below. *)

From stdpp Require Import base option list gmap fin_maps strings.
From Stdlib Require Import ZArith Lia Sorted.

Local Open Scope string_scope.
Local Open Scope list_scope.
Local Open Scope Z_scope.

(** ** Effects: a trace of observable actions and the way a call ends *)

Module effect.

(** How a Go call ends: it returns, it panics, or the process exits
    (logrus [Fatalf] calls [os.Exit(1)] after writing the entry). *)
Inductive Outcome (A : Type) : Type :=
| Returned (a : A)
| Panicked (err : string)
| Exited (code : Z).
Arguments Returned {A} a.
Arguments Panicked {A} err.
Arguments Exited {A} code.

(** A computation over observable actions [E]: the actions performed, in
    order, and the outcome. *)
Definition Run (E A : Type) : Type := (list E * Outcome A)%type.

Definition run_ret {E A} (a : A) : Run E A := ([], Returned a).

Definition run_bind {E A B} (k : A -> Run E B) (c : Run E A) : Run E B :=
  match c with
  | (t, Returned a) => let '(t', o) := k a in (t ++ t', o)
  | (t, Panicked err) => (t, Panicked err)
  | (t, Exited code) => (t, Exited code)
  end.

#[export] Instance Run_ret {E} : MRet (Run E) := @run_ret E.
#[export] Instance Run_bind {E} : MBind (Run E) := @run_bind E.

Definition emit {E} (e : E) : Run E unit := ([e], Returned tt).
Definition panic {E A} (err : string) : Run E A := ([], Panicked err).
Definition exit {E A} (code : Z) : Run E A := ([], Exited code).

Definition trace {E A} (c : Run E A) : list E := c.1.
Definition outcome {E A} (c : Run E A) : Outcome A := c.2.

(** logrus severities used by the code. *)
Inductive Level : Type := InfoLevel | ErrorLevel | FatalLevel.

End effect.
Export effect.

(** ** Package events *)

Module events.

(** [Uuid]: two unsigned 64-bit halves. *)
Record Uuid : Type := mkUuid { High64 : Z; Low64 : Z }.

(** The message structs ([SubmitJob], [ReprioritiseJob], ...) are
    generated code declared outside the files at hand; [JobIdFromEvent]
    reads one field of them, the [*Uuid] called [JobId], which is
    returned as it is (nil included).  A oneof wrapper that is set holds
    its message, as the data model has it: every listed variant carries
    the owning job id. *)
Record JobMessage : Type := mkJobMessage { JobId : option Uuid }.

(** The dynamic type of [event.Event].  The nine wrappers named by the
    type switch, the nil interface value, and any other wrapper type
    (identified by its type name): the latter two reach [default]. *)
Inductive isEventSequence_Event_Event : Type :=
| EventSequence_Event_SubmitJob (SubmitJob : JobMessage)
| EventSequence_Event_ReprioritiseJob (ReprioritiseJob : JobMessage)
| EventSequence_Event_CancelJob (CancelJob : JobMessage)
| EventSequence_Event_JobSucceeded (JobSucceeded : JobMessage)
| EventSequence_Event_JobRunSucceeded (JobRunSucceeded : JobMessage)
| EventSequence_Event_JobRunLeased (JobRunLeased : JobMessage)
| EventSequence_Event_JobRunAssigned (JobRunAssigned : JobMessage)
| EventSequence_Event_JobRunRunning (JobRunRunning : JobMessage)
| EventSequence_Event_JobRunErrors (JobRunErrors : JobMessage)
| EventSequence_Event_nil
| EventSequence_Event_other (type_name : string).

Record EventSequence_Event : Type :=
  mkEvent { Event : isEventSequence_Event_Event }.

(** [armadaerrors.ErrInvalidArgument] and [errors.WithStack]. *)
Inductive error : Type :=
| ErrInvalidArgument (Name : string) (Value : isEventSequence_Event_Event)
                     (Message : string)
| WithStack (err : error).

Definition JobIdFromEvent (event : EventSequence_Event)
  : option Uuid * option error :=
  match Event event with
  | EventSequence_Event_SubmitJob e => (JobId e, None)
  | EventSequence_Event_ReprioritiseJob e => (JobId e, None)
  | EventSequence_Event_CancelJob e => (JobId e, None)
  | EventSequence_Event_JobSucceeded e => (JobId e, None)
  | EventSequence_Event_JobRunSucceeded e => (JobId e, None)
  | EventSequence_Event_JobRunLeased e => (JobId e, None)
  | EventSequence_Event_JobRunAssigned e => (JobId e, None)
  | EventSequence_Event_JobRunRunning e => (JobId e, None)
  | EventSequence_Event_JobRunErrors e => (JobId e, None)
  | e =>
      let err := WithStack (ErrInvalidArgument "event.Event" e
                              "event doesn't contain a jobId") in
      (Some {| High64 := 0; Low64 := 0 |}, Some err)
  end.

(** The variants that carry a job id, with the id each one carries. *)
Inductive carries_job_id : isEventSequence_Event_Event -> option Uuid -> Prop :=
| carries_SubmitJob m : carries_job_id (EventSequence_Event_SubmitJob m) (JobId m)
| carries_ReprioritiseJob m :
    carries_job_id (EventSequence_Event_ReprioritiseJob m) (JobId m)
| carries_CancelJob m : carries_job_id (EventSequence_Event_CancelJob m) (JobId m)
| carries_JobSucceeded m :
    carries_job_id (EventSequence_Event_JobSucceeded m) (JobId m)
| carries_JobRunSucceeded m :
    carries_job_id (EventSequence_Event_JobRunSucceeded m) (JobId m)
| carries_JobRunLeased m :
    carries_job_id (EventSequence_Event_JobRunLeased m) (JobId m)
| carries_JobRunAssigned m :
    carries_job_id (EventSequence_Event_JobRunAssigned m) (JobId m)
| carries_JobRunRunning m :
    carries_job_id (EventSequence_Event_JobRunRunning m) (JobId m)
| carries_JobRunErrors m :
    carries_job_id (EventSequence_Event_JobRunErrors m) (JobId m).

Definition carries_no_job_id (e : isEventSequence_Event_Event) : Prop :=
  forall id, ~ carries_job_id e id.

(** The error of the [default] branch for the dynamic value [e]. *)
Definition invalid_argument (e : isEventSequence_Event_Event) : error :=
  WithStack (ErrInvalidArgument "event.Event" e "event doesn't contain a jobId").

End events.

(** ** Package common: ComputeResources *)

Module common.

(** [ComputeResources]: resource name to quantity.  Quantities are exact
    numbers, so they are integers (of the smallest unit) here. *)
Abbreviation ComputeResources := (gmap string Z).

(** The quantity recorded for a resource name; a name that is absent
    counts for nothing. *)
Definition quantity (r : ComputeResources) (name : string) : Z :=
  default 0 (r !! name).

(** Modelled from the spec: [ComputeResources.Add], whose body is not
    among the files at hand.  Addition per resource name; a name present
    on one side only keeps its quantity. *)
Definition Add (a b : ComputeResources) : ComputeResources :=
  union_with (fun x y => Some (x + y)) a b.

(** Modelled from the spec: [ComputeResources.Sub], whose body is not
    among the files at hand.  Subtraction per resource name, never
    clamped: a name that only [b] has ends up with the negated
    quantity. *)
Definition Sub (a b : ComputeResources) : ComputeResources :=
  merge (fun x y =>
           match x, y with
           | Some x, Some y => Some (x - y)
           | Some x, None => Some x
           | None, Some y => Some (- y)
           | None, None => None
           end) a b.

(** Modelled from the spec: [ComputeResources.DeepCopy].  The copy has
    the contents of the original and shares nothing with it, so changing
    the copy leaves the original alone; on values it is the identity. *)
Definition DeepCopy (a : ComputeResources) : ComputeResources := a.

End common.
Export common.

(** ** Package service: cluster utilisation *)

Module service.

(** *** Kubernetes objects, as far as the service reads them *)

Record Taint : Type := mkTaint { Key : string; Value : string; Effect : string }.

(** [v1.TaintEffectNoSchedule] *)
Definition TaintEffectNoSchedule : string := "NoSchedule".

Record Node : Type := mkNode {
  Node_Name : string;
  Node_Unschedulable : bool;          (* node.Spec.Unschedulable *)
  Node_Taints : list Taint;           (* node.Spec.Taints *)
  Node_Allocatable : ComputeResources (* node.Status.Allocatable *)
}.

Inductive PodPhase : Type :=
  PodPending | PodRunning | PodSucceeded | PodFailed | PodUnknown.

(** [Pod_Resources] is what [common.CalculateTotalResourceLimit] counts
    for one pod (the "resource requests/limits" of the data model). *)
Record Pod : Type := mkPod {
  Pod_Name : string;
  Pod_Labels : gmap string string;
  Pod_NodeName : string;              (* pod.Spec.NodeName *)
  Pod_Phase : PodPhase;               (* pod.Status.Phase *)
  Pod_Resources : ComputeResources
}.

(** The two selectors handed to the pod and node listers:
    [labels.Everything()] and [util.GetManagedPodSelector()]. *)
Inductive Selector : Type := Everything | ManagedPodSelector.

Definition error : Type := string.

Record QueueReport : Type := mkQueueReport {
  QueueReport_Name : string;
  QueueReport_Resources : ComputeResources
}.

Record ClusterUsageReport : Type := mkClusterUsageReport {
  ClusterId : string;
  ReportTime : Z;
  Queues : list QueueReport;
  ClusterCapacity : ComputeResources
}.

(** The listers and the usage client are capabilities of the
    surroundings: each call yields a value and an error, nil or not. *)
Record ClusterUtilisationService : Type := mkClusterUtilisationService {
  ClientId : string;
  PodLister : Selector -> list Pod * option error;
  NodeLister : Selector -> list Node * option error;
  UsageClient : ClusterUsageReport -> option error
}.

(** What the service does that can be seen from outside. *)
Inductive Action : Type :=
| Log (level : Level) (message : string)
| ReportUsage (report : ClusterUsageReport).

Definition log_Errorf (message : string) : Run Action unit :=
  emit (Log ErrorLevel message).

(** *** Helpers of packages common and util *)

(** Modelled from the spec: [common.CalculateTotalResource], whose body
    is not among the files at hand: the total allocatable capacity of the
    nodes given. *)
Definition CalculateTotalResource (nodes : list Node) : ComputeResources :=
  foldl (fun total node => Add total (Node_Allocatable node)) ∅ nodes.

(** Modelled from the spec: [common.CalculateTotalResourceLimit], whose
    body is not among the files at hand: the sum of the resources of the
    pods given. *)
Definition CalculateTotalResourceLimit (pods : list Pod) : ComputeResources :=
  foldl (fun total pod => Add total (Pod_Resources pod)) ∅ pods.

(** Modelled from the spec: completed pods are those in the succeeded or
    failed phase. *)
Definition IsInTerminalState (pod : Pod) : bool :=
  match Pod_Phase pod with
  | PodSucceeded | PodFailed => true
  | _ => false
  end.

(** Modelled from the spec: [util.FilterNonCompletedPods], whose body is
    not among the files at hand. *)
Definition FilterNonCompletedPods (pods : list Pod) : list Pod :=
  List.filter (fun pod => negb (IsInTerminalState pod)) pods.

Section Service.

(** [domain.Queue], the label key naming a pod's queue, and
    [util.IsManagedPod]: both are declared outside the files at hand
    and stay parameters. *)
Variable Queue : string.
Variable IsManagedPod : Pod -> bool.

(** *** Node selection *)

Definition isAvailableProcessingNode (node : Node) : bool :=
  if Node_Unschedulable node then false
  else
    let noSchedule :=
      (fix loop (taints : list Taint) : bool :=
         match taints with
         | [] => false
         | taint :: rest =>
             if String.eqb (Effect taint) TaintEffectNoSchedule
             then true (* break *)
             else loop rest
         end) (Node_Taints node) in
    if noSchedule then false else true.

Definition filterAvailableProcessingNodes (nodes : list Node) : list Node :=
  foldl (fun processingNodes node =>
           if isAvailableProcessingNode node
           then processingNodes ++ [node]
           else processingNodes) [] nodes.

Definition getAllAvailableProcessingNodes (svc : ClusterUtilisationService)
  : list Node * option error :=
  match NodeLister svc Everything with
  | (_, Some err) => ([], Some err)
  | (allNodes, None) => (filterAvailableProcessingNodes allNodes, None)
  end.

(** *** Pod selection *)

Definition getAllPodsRequiringResourceOnProcessingNodes
  (allPods : list Pod) (workerNodes : list Node) : list Pod :=
  let nodeMap : gmap string Node :=
    foldl (fun nodeMap node => <[Node_Name node := node]> nodeMap) ∅ workerNodes in
  foldl (fun podsUsingResourceOnProcessingNodes pod =>
           match nodeMap !! Pod_NodeName pod with
           | Some _ => podsUsingResourceOnProcessingNodes ++ [pod]
           | None =>
               if IsManagedPod pod && String.eqb (Pod_NodeName pod) ""
               then podsUsingResourceOnProcessingNodes ++ [pod]
               else podsUsingResourceOnProcessingNodes
           end) [] allPods.

Definition getAllActiveManagedPods
  (podLister : Selector -> list Pod * option error) : list Pod * option error :=
  let managedPodSelector := ManagedPodSelector in
  match podLister managedPodSelector with
  | (_, Some err) => ([], Some err)
  | (allActiveManagedPods, None) =>
      (FilterNonCompletedPods allActiveManagedPods, None)
  end.

(** *** Available capacity *)

Definition GetAvailableClusterCapacity (svc : ClusterUtilisationService)
  : ComputeResources * option error :=
  match getAllAvailableProcessingNodes svc with
  | (_, Some err) =>
      (∅, Some ("Failed getting available cluster capacity due to: " +:+ err))
  | (processingNodes, None) =>
      match PodLister svc Everything with
      | (_, Some err) =>
          (∅, Some ("Failed getting available cluster capacity due to: " +:+ err))
      | (allPods, None) =>
          let allPodsRequiringResource :=
            getAllPodsRequiringResourceOnProcessingNodes allPods processingNodes in
          let allNonCompletePodsRequiringResource :=
            FilterNonCompletedPods allPodsRequiringResource in
          let totalNodeResource := CalculateTotalResource processingNodes in
          let totalPodResource :=
            CalculateTotalResourceLimit allNonCompletePodsRequiringResource in
          let availableResource := DeepCopy totalNodeResource in
          let availableResource := Sub availableResource totalPodResource in
          (availableResource, None)
      end
  end.

(** *** Usage per queue *)

(** The body of the loop of [getUsageByQueue]: one pod against the map
    built so far. *)
Definition getUsageByQueue_step
  (utilisationByQueue : gmap string ComputeResources) (pod : Pod)
  : Run Action (gmap string ComputeResources) :=
  match Pod_Labels pod !! Queue with
  | None =>
      log_Errorf ("Pod " +:+ Pod_Name pod +:+
                  " found not belonging to a queue, not reporting its usage") ;;
      mret utilisationByQueue (* continue *)
  | Some queue =>
      let podComputeResource := CalculateTotalResourceLimit [pod] in
      match utilisationByQueue !! queue with
      | Some usage =>
          mret (<[queue := Add usage podComputeResource]> utilisationByQueue)
      | None =>
          mret (<[queue := podComputeResource]> utilisationByQueue)
      end
  end.

Fixpoint getUsageByQueue_loop
  (pods : list Pod) (utilisationByQueue : gmap string ComputeResources)
  : Run Action (gmap string ComputeResources) :=
  match pods with
  | [] => mret utilisationByQueue
  | pod :: rest =>
      utilisationByQueue ← getUsageByQueue_step utilisationByQueue pod ;
      getUsageByQueue_loop rest utilisationByQueue
  end.

Definition getUsageByQueue (pods : list Pod)
  : Run Action (gmap string ComputeResources) :=
  getUsageByQueue_loop pods ∅.

(** Go ranges over the map in no fixed order; the reports are listed
    here in the order of [map_to_list]. *)
Definition createReportsOfQueueUsages (pods : list Pod)
  : Run Action (list QueueReport) :=
  usagesByQueue ← getUsageByQueue pods ;
  mret (foldl (fun queueReports '(queueName, queueUsage) =>
                 queueReports ++
                   [ {| QueueReport_Name := queueName;
                        QueueReport_Resources := queueUsage |} ])
              [] (map_to_list usagesByQueue)).

(** *** Reporting *)

Definition reportUsage (svc : ClusterUtilisationService)
  (clusterUsage : ClusterUsageReport) : Run Action (option error) :=
  emit (ReportUsage clusterUsage) ;;
  mret (UsageClient svc clusterUsage).

(** [now] is the reading of [time.Now()]. *)
Definition ReportClusterUtilisation (svc : ClusterUtilisationService) (now : Z)
  : Run Action unit :=
  match getAllAvailableProcessingNodes svc with
  | (_, Some err) =>
      log_Errorf
        ("Failed to get required information to report cluster usage because "
           +:+ err)
  | (allAvailableProcessingNodes, None) =>
      let totalNodeResource := CalculateTotalResource allAvailableProcessingNodes in
      match getAllActiveManagedPods (PodLister svc) with
      | (_, Some err) =>
          log_Errorf
            ("Failed to get required information to report cluster usage because "
               +:+ err)
      | (allActiveManagedPods, None) =>
          queueReports ← createReportsOfQueueUsages allActiveManagedPods ;
          let clusterUsage :=
            {| ClusterId := ClientId svc;
               ReportTime := now;
               Queues := queueReports;
               ClusterCapacity := totalNodeResource |} in
          err ← reportUsage svc clusterUsage ;
          match err with
          | Some err => log_Errorf ("Failed to report cluster usage because " +:+ err)
          | None => mret tt
          end
      end
  end.

(** *** The accounting as the specification words it *)

(** A node is an available processing node: not marked unschedulable,
    and no taint of it has the effect that blocks scheduling. *)
Definition available_processing_node (node : Node) : Prop :=
  Node_Unschedulable node = false /\
  Forall (fun taint => Effect taint <> TaintEffectNoSchedule) (Node_Taints node).

(** A pod is bound to one of the nodes: its node assignment names it. *)
Definition bound_to (nodes : list Node) (pod : Pod) : Prop :=
  Pod_NodeName pod ∈ (Node_Name <$> nodes).

(** A managed pod that no node has been assigned to yet. *)
Definition pending_managed (pod : Pod) : Prop :=
  IsManagedPod pod = true /\ Pod_NodeName pod = "".

Definition requires_resource (nodes : list Node) (pod : Pod) : Prop :=
  bound_to nodes pod \/ pending_managed pod.

Definition non_completed (pod : Pod) : Prop :=
  Pod_Phase pod <> PodSucceeded /\ Pod_Phase pod <> PodFailed.

#[local] Instance PodPhase_eq_dec : EqDecision PodPhase.
Proof. solve_decision. Defined.

#[export] Instance available_processing_node_dec node :
  Decision (available_processing_node node).
Proof. unfold available_processing_node. apply _. Defined.

#[export] Instance requires_resource_dec nodes pod :
  Decision (requires_resource nodes pod).
Proof.
  unfold requires_resource, bound_to, pending_managed. apply _.
Defined.

#[export] Instance non_completed_dec pod : Decision (non_completed pod).
Proof. unfold non_completed. apply _. Defined.

(** The quantity of one resource summed over a list of objects. *)
Definition total_quantity {A} (resources : A -> ComputeResources)
  (objects : list A) (name : string) : Z :=
  foldr (fun object sum => quantity (resources object) name + sum) 0 objects.

Definition spec_processing_nodes (nodes : list Node) : list Node :=
  filter available_processing_node nodes.

(** Total capacity of the available processing nodes. *)
Definition spec_capacity (nodes : list Node) (name : string) : Z :=
  total_quantity Node_Allocatable (spec_processing_nodes nodes) name.

(** Sum of the resources of the non-completed pods bound to, or pending
    onto, the available processing nodes. *)
Definition spec_demand (nodes : list Node) (pods : list Pod) (name : string) : Z :=
  total_quantity Pod_Resources
    (filter (fun pod => requires_resource (spec_processing_nodes nodes) pod
                        /\ non_completed pod) pods) name.

Definition spec_available (nodes : list Node) (pods : list Pod) (name : string) : Z :=
  spec_capacity nodes name - spec_demand nodes pods name.

(** The pods that carry the queue label with the value [queue]. *)
Definition pods_of_queue (queue : string) (pods : list Pod) : list Pod :=
  filter (fun pod => Pod_Labels pod !! Queue = Some queue) pods.

End Service.

End service.


(** ** Package armada: wiring of the server *)

Module armada.

(** [time.Duration] counts nanoseconds. *)
Definition Millisecond : Z := 1000000.
Definition Second : Z := 1000 * Millisecond.
Definition Minute : Z := 60 * Second.

(** *** Configuration, as far as [Serve] and [createServer] read it *)

Record KafkaConfig : Type := mkKafkaConfig {
  Brokers : list string;
  Topic : string;
  ConsumerGroupID : string
}.

Record NatsConfig : Type := mkNatsConfig {
  Servers : list string;
  ClusterID : string;
  Subject : string;
  QueueGroup : string
}.

Record LeaseSettings : Type := mkLeaseSettings {
  ExpireAfter : Z;
  ExpiryLoopInterval : Z
}.

Record ArmadaConfig : Type := mkArmadaConfig {
  GrpcPort : Z;
  EventsKafka : KafkaConfig;
  EventsNats : NatsConfig;
  EventRetention : Z;
  PriorityHalfTime : Z;
  Scheduling_Lease : LeaseSettings;      (* config.Scheduling.Lease *)
  BasicAuth_Users : gmap string string;  (* config.BasicAuth.Users *)
  OpenIdAuth_ProviderUrl : string;       (* config.OpenIdAuth.ProviderUrl *)
  AnonymousAuth : bool;
  Kerberos_KeytabLocation : string       (* config.Kerberos.KeytabLocation *)
}.

(** *** The surroundings: what the calls out of the process answer *)

Record World : Type := mkWorld {
  NewULID : string;                               (* util.NewULID() *)
  stan_Connect : string -> string -> string -> option string;
                                                  (* nil error: connected *)
  conn_Close : option string;                     (* conn.Close() *)
  net_Listen : Z -> option string;                (* net.Listen("tcp", ":port") *)
  NewOpenIdAuthServiceForProvider : string -> option string;
  NewKerberosAuthService : string -> option string
}.

(** *** Objects built by [Serve] *)

Inductive AuthService : Type :=
| BasicAuthService (users : gmap string string)
| OpenIdAuthService (providerUrl : string)
| AnonymousAuthService
| KerberosAuthService (keytabLocation : string).

Inductive Interceptor : Type :=
| grpc_auth (authServices : list AuthService)
| grpc_prometheus.

Record GrpcServer : Type := mkGrpcServer {
  MaxConnectionIdle : Z;
  streamInterceptors : list Interceptor;
  unaryInterceptors : list Interceptor
}.

Record NatsConn : Type := mkNatsConn {
  conn_clusterID : string; conn_clientID : string; conn_url : string
}.

(** The three implementations of [repository.EventStore]. *)
Inductive EventStore : Type :=
| KafkaEventStore (writer : KafkaConfig)
| NatsEventStore (conn : NatsConn) (subject : string)
| RedisEventRepository (retention : Z).

Inductive Task : Type :=
| KafkaProcessEvents   (* eventProcessor.ProcessEvents *)
| ExpireLeases.        (* leaseManager.ExpireLeases *)

Inductive LogArg : Type :=
| ArgKafkaConfig (c : KafkaConfig)
| ArgError (err : string)
| ArgInt (n : Z).

(** What [Serve] and the closure it returns do that can be seen from
    outside, in program order.  The goroutine serving gRPC is recorded
    where it is spawned; what it does afterwards is not followed. *)
Inductive Action : Type :=
| Log (level : Level) (format : string) (args : list LogArg)
| KafkaNewWriter (c : KafkaConfig)
| KafkaNewReader (c : KafkaConfig) (maxWait minBytes maxBytes : Z)
| TaskRegister (task : Task) (interval : Z) (name : string)
| StanConnect (clusterID clientID url : string)
| NatsProcessorStart (conn : NatsConn) (subject queueGroup : string)
| NatsConnClose (conn : NatsConn)
| NewSubmitServer (eventStore : EventStore)
| NewUsageServer (priorityHalfTime : Z)
| NewAggregatedQueueServer (eventStore : EventStore)
| NewEventServer (eventRepository eventStore : EventStore)
| NewLeaseManager (eventStore : EventStore) (leaseExpiry : Z)
| NetListen (port : Z)
| GoServe (server : GrpcServer) (port : Z)
| TaskStopAll (timeout : Z)
| GrpcGracefulStop.

Record WaitGroup : Type := mkWaitGroup { counter : Z }.

Definition createServer (config : ArmadaConfig) (world : World)
  : Run Action GrpcServer :=
  let unaryInterceptors := [] in
  let streamInterceptors := [] in
  let authServices := [] in
  let authServices :=
    if (0 <? size (BasicAuth_Users config))%nat
    then authServices ++ [BasicAuthService (BasicAuth_Users config)]
    else authServices in
  authServices ←
    (if negb (String.eqb (OpenIdAuth_ProviderUrl config) "")
     then match NewOpenIdAuthServiceForProvider world (OpenIdAuth_ProviderUrl config) with
          | Some err => panic err
          | None => mret (authServices ++
                            [OpenIdAuthService (OpenIdAuth_ProviderUrl config)])
          end
     else mret authServices) ;
  let authServices :=
    if AnonymousAuth config
    then authServices ++ [AnonymousAuthService]
    else authServices in
  authServices ←
    (if negb (String.eqb (Kerberos_KeytabLocation config) "")
     then match NewKerberosAuthService world (Kerberos_KeytabLocation config) with
          | Some err => panic err
          | None => mret (authServices ++
                            [KerberosAuthService (Kerberos_KeytabLocation config)])
          end
     else mret authServices) ;
  let unaryInterceptors := unaryInterceptors ++ [grpc_auth authServices] in
  let streamInterceptors := streamInterceptors ++ [grpc_auth authServices] in
  let unaryInterceptors := unaryInterceptors ++ [grpc_prometheus] in
  let streamInterceptors := streamInterceptors ++ [grpc_prometheus] in
  mret {| MaxConnectionIdle := 5 * Minute;
          streamInterceptors := streamInterceptors;
          unaryInterceptors := unaryInterceptors |}.

(** [strings.Join(elems, sep)] *)
Definition strings_Join (elems : list string) (sep : string) : string :=
  String.concat sep elems.

(** The branch of [Serve] that chooses the event store: it yields the
    store and the [stopSubscription] closure. *)
Definition selectEventStore (config : ArmadaConfig) (world : World)
  (redisEventRepository : EventStore)
  : Run Action (EventStore * Run Action unit) :=
  let stopSubscription : Run Action unit := mret tt in
  if (0 <? length (Brokers (EventsKafka config)))%nat then
    emit (Log InfoLevel "Using Kafka for events (%+v)"
            [ArgKafkaConfig (EventsKafka config)]) ;;
    emit (KafkaNewWriter (EventsKafka config)) ;;
    emit (KafkaNewReader (EventsKafka config) (500 * Millisecond) 0 10000000) ;;
    let eventStore := KafkaEventStore (EventsKafka config) in
    emit (TaskRegister KafkaProcessEvents (100 * Millisecond)
            "kafka_redis_processor") ;;
    mret (eventStore, stopSubscription)
  else if (0 <? length (Servers (EventsNats config)))%nat then
    let clusterID := ClusterID (EventsNats config) in
    let clientID := "armada-server-" +:+ NewULID world in
    let url := strings_Join (Servers (EventsNats config)) "," in
    emit (StanConnect clusterID clientID url) ;;
    match stan_Connect world clusterID clientID url with
    | Some err => panic err
    | None =>
        let conn := {| conn_clusterID := clusterID;
                       conn_clientID := clientID;
                       conn_url := url |} in
        let eventStore := NatsEventStore conn (Subject (EventsNats config)) in
        emit (NatsProcessorStart conn (Subject (EventsNats config))
                (QueueGroup (EventsNats config))) ;;
        let stopSubscription : Run Action unit :=
          emit (NatsConnClose conn) ;;
          match conn_Close world with
          | Some err =>
              emit (Log ErrorLevel "failed to close nats connection: %v" [ArgError err])
          | None => mret tt
          end in
        mret (eventStore, stopSubscription)
    end
  else
    mret (redisEventRepository, stopSubscription).

Definition Serve (config : ArmadaConfig) (world : World)
  : Run Action (Run Action unit * WaitGroup) :=
  let wg := {| counter := 1 |} in
  grpcServer ← createServer config world ;
  let redisEventRepository := RedisEventRepository (EventRetention config) in
  '(eventStore, stopSubscription) ← selectEventStore config world redisEventRepository ;
  emit (NewSubmitServer eventStore) ;;
  emit (NewUsageServer (PriorityHalfTime config)) ;;
  emit (NewAggregatedQueueServer eventStore) ;;
  emit (NewEventServer redisEventRepository eventStore) ;;
  emit (NewLeaseManager eventStore (ExpireAfter (Scheduling_Lease config))) ;;
  emit (TaskRegister ExpireLeases (ExpiryLoopInterval (Scheduling_Lease config))
          "lease_expiry") ;;
  emit (NetListen (GrpcPort config)) ;;
  match net_Listen world (GrpcPort config) with
  | Some err =>
      emit (Log FatalLevel "failed to listen: %v" [ArgError err]) ;;
      exit 1
  | None =>
      emit (GoServe grpcServer (GrpcPort config)) ;;
      mret (stopSubscription ;;
            emit (TaskStopAll (Second * 2)) ;;
            emit GrpcGracefulStop,
            wg)
  end.

(** *** The ways through [Serve] that return *)

(** The three ways [selectEventStore] returns. *)
Inductive selected (config : ArmadaConfig) (world : World) (redis : EventStore)
  : list Action -> EventStore -> Run Action unit -> Prop :=
| selected_kafka :
    Brokers (EventsKafka config) <> [] ->
    selected config world redis
      [ Log InfoLevel "Using Kafka for events (%+v)" [ArgKafkaConfig (EventsKafka config)];
        KafkaNewWriter (EventsKafka config);
        KafkaNewReader (EventsKafka config) (500 * Millisecond) 0 10000000;
        TaskRegister KafkaProcessEvents (100 * Millisecond) "kafka_redis_processor" ]
      (KafkaEventStore (EventsKafka config))
      (mret tt)
| selected_nats conn :
    Brokers (EventsKafka config) = [] ->
    Servers (EventsNats config) <> [] ->
    conn = {| conn_clusterID := ClusterID (EventsNats config);
              conn_clientID := "armada-server-" +:+ NewULID world;
              conn_url := strings_Join (Servers (EventsNats config)) "," |} ->
    stan_Connect world (conn_clusterID conn) (conn_clientID conn) (conn_url conn) = None ->
    selected config world redis
      [ StanConnect (conn_clusterID conn) (conn_clientID conn) (conn_url conn);
        NatsProcessorStart conn (Subject (EventsNats config))
          (QueueGroup (EventsNats config)) ]
      (NatsEventStore conn (Subject (EventsNats config)))
      (emit (NatsConnClose conn) ;;
       match conn_Close world with
       | Some err =>
           emit (Log ErrorLevel "failed to close nats connection: %v" [ArgError err])
       | None => mret tt
       end)
| selected_redis :
    Brokers (EventsKafka config) = [] ->
    Servers (EventsNats config) = [] ->
    selected config world redis [] redis (mret tt).

(** The steps of [Serve] after the event store is chosen, up to the
    spawning of the goroutine. *)
Definition wiring_steps (config : ArmadaConfig) (server : GrpcServer)
    (es : EventStore) : list Action :=
  [ NewSubmitServer es;
    NewUsageServer (PriorityHalfTime config);
    NewAggregatedQueueServer es;
    NewEventServer (RedisEventRepository (EventRetention config)) es;
    NewLeaseManager es (ExpireAfter (Scheduling_Lease config));
    TaskRegister ExpireLeases (ExpiryLoopInterval (Scheduling_Lease config))
      "lease_expiry";
    NetListen (GrpcPort config);
    GoServe server (GrpcPort config) ].

(** *** Reading a trace *)

(** The event stores handed to the servers and to the lease manager. *)
Definition event_store_of (a : Action) : option EventStore :=
  match a with
  | NewSubmitServer es | NewAggregatedQueueServer es
  | NewEventServer _ es | NewLeaseManager es _ => Some es
  | _ => None
  end.

Definition event_stores_used (t : list Action) : list EventStore :=
  omap event_store_of t.

(** Starting or registering a processor that replicates events. *)
Definition is_processor (a : Action) : bool :=
  match a with
  | TaskRegister KafkaProcessEvents _ _ | NatsProcessorStart _ _ _ => true
  | _ => false
  end.

(** The two steps that end the shutdown. *)
Definition is_stop_step (a : Action) : bool :=
  match a with
  | TaskStopAll _ | GrpcGracefulStop => true
  | _ => false
  end.

End armada.


(** ** Sample snapshots and configurations *)

Module sample.
Import service armada.

Definition queue_label : string := "armada_queue_id".
Definition job_label : string := "armada_job_id".

(** A pod counts as managed when it carries the job label. *)
Definition is_managed (pod : Pod) : bool :=
  bool_decide (is_Some (Pod_Labels pod !! job_label)).

Definition cpu (millis : Z) : ComputeResources := {[ "cpu" := millis ]}.

Definition node_a : Node :=
  {| Node_Name := "node-a"; Node_Unschedulable := false; Node_Taints := [];
     Node_Allocatable := cpu 1000 |}.
Definition node_cordoned : Node :=
  {| Node_Name := "node-b"; Node_Unschedulable := true; Node_Taints := [];
     Node_Allocatable := cpu 4000 |}.
Definition node_tainted : Node :=
  {| Node_Name := "node-c"; Node_Unschedulable := false;
     Node_Taints := [ {| Key := "dedicated"; Value := "infra";
                         Effect := "NoSchedule" |} ];
     Node_Allocatable := cpu 8000 |}.

Definition managed_labels (queue job : string) : gmap string string :=
  {[ queue_label := queue; job_label := job ]}.

Definition pod_1 : Pod :=
  {| Pod_Name := "job-1"; Pod_Labels := managed_labels "alpha" "1";
     Pod_NodeName := "node-a"; Pod_Phase := PodRunning; Pod_Resources := cpu 600 |}.
Definition pod_2 : Pod :=
  {| Pod_Name := "job-2"; Pod_Labels := managed_labels "alpha" "2";
     Pod_NodeName := "node-a"; Pod_Phase := PodRunning; Pod_Resources := cpu 900 |}.
Definition pod_done : Pod :=
  {| Pod_Name := "job-3"; Pod_Labels := managed_labels "beta" "3";
     Pod_NodeName := "node-a"; Pod_Phase := PodSucceeded; Pod_Resources := cpu 5000 |}.
Definition pod_elsewhere : Pod :=
  {| Pod_Name := "daemon"; Pod_Labels := ∅;
     Pod_NodeName := "node-c"; Pod_Phase := PodRunning; Pod_Resources := cpu 700 |}.
Definition pod_pending : Pod :=
  {| Pod_Name := "job-4"; Pod_Labels := managed_labels "beta" "4";
     Pod_NodeName := ""; Pod_Phase := PodPending; Pod_Resources := cpu 250 |}.
Definition pod_unlabelled : Pod :=
  {| Pod_Name := "stray"; Pod_Labels := {[ job_label := "5" ]};
     Pod_NodeName := "node-a"; Pod_Phase := PodRunning; Pod_Resources := cpu 100 |}.

Definition nodes : list Node := [node_a; node_cordoned; node_tainted].
Definition pods : list Pod := [pod_1; pod_2; pod_done; pod_elsewhere; pod_pending].

(** A cluster whose listers answer with the snapshot above. *)
Definition cluster : ClusterUtilisationService :=
  {| ClientId := "cluster-1";
     PodLister := fun selector =>
       match selector with
       | Everything => (pods, None)
       | ManagedPodSelector => (List.filter is_managed pods, None)
       end;
     NodeLister := fun _ => (nodes, None);
     UsageClient := fun _ => None |}.

(** The same cluster with a pod lister that fails. *)
Definition cluster_pods_unreadable : ClusterUtilisationService :=
  {| ClientId := "cluster-1";
     PodLister := fun _ => ([], Some "pod cache not synced");
     NodeLister := fun _ => (nodes, None);
     UsageClient := fun _ => None |}.

Definition world : World :=
  {| NewULID := "01ARZ3NDEKTSV4RRFFQ69G5FAV";
     stan_Connect := fun _ _ _ => None;
     conn_Close := None;
     net_Listen := fun _ => None;
     NewOpenIdAuthServiceForProvider := fun _ => None;
     NewKerberosAuthService := fun _ => None |}.

Definition config (brokers servers : list string) : ArmadaConfig :=
  {| GrpcPort := 50051;
     EventsKafka := {| Brokers := brokers; Topic := "events";
                       ConsumerGroupID := "armada" |};
     EventsNats := {| Servers := servers; ClusterID := "armada-cluster";
                      Subject := "ArmadaEvents"; QueueGroup := "ArmadaEventsRedisProcessor" |};
     EventRetention := 0;
     PriorityHalfTime := 20 * Minute;
     Scheduling_Lease := {| ExpireAfter := 15 * Minute;
                            ExpiryLoopInterval := 5 * Second |};
     BasicAuth_Users := ∅;
     OpenIdAuth_ProviderUrl := "";
     AnonymousAuth := true;
     Kerberos_KeytabLocation := "" |}.

Definition config_nats : ArmadaConfig := config [] ["nats://nats-0:4222"].
Definition config_both : ArmadaConfig :=
  config ["kafka-0:9092"] ["nats://nats-0:4222"].

(** The closure and the wait group a returning [Serve] hands back. *)
Definition stop_of (c : Run Action (Run Action unit * WaitGroup))
  : Run Action unit * WaitGroup :=
  match outcome c with
  | Returned r => r
  | _ => (mret tt, {| counter := 0 |})
  end.

(** A cluster that answers with the nodes above and the pods given. *)
Definition cluster_of (pods : list Pod) : ClusterUtilisationService :=
  {| ClientId := "cluster-1";
     PodLister := fun selector =>
       match selector with
       | Everything => (pods, None)
       | ManagedPodSelector => (List.filter is_managed pods, None)
       end;
     NodeLister := fun _ => (nodes, None);
     UsageClient := fun _ => Some "deadline exceeded" |}.


Definition world_nats_away : World :=
  {| NewULID := NewULID world;
     stan_Connect := fun _ _ _ => Some "stan: connect request timeout";
     conn_Close := None;
     net_Listen := net_Listen world;
     NewOpenIdAuthServiceForProvider := fun _ => Some "oidc: provider unreachable";
     NewKerberosAuthService := fun _ => Some "keytab not found" |}.

Definition world_close_fails : World :=
  {| NewULID := NewULID world;
     stan_Connect := stan_Connect world;
     conn_Close := Some "nats: connection closed";
     net_Listen := net_Listen world;
     NewOpenIdAuthServiceForProvider := NewOpenIdAuthServiceForProvider world;
     NewKerberosAuthService := NewKerberosAuthService world |}.

(** A configuration with every authentication service switched on. *)
Definition config_all_auth : ArmadaConfig :=
  {| GrpcPort := 50051;
     EventsKafka := EventsKafka (config [] []);
     EventsNats := EventsNats (config [] []);
     EventRetention := 0;
     PriorityHalfTime := 20 * Minute;
     Scheduling_Lease := Scheduling_Lease (config [] []);
     BasicAuth_Users := {[ "alice" := "secret" ]};
     OpenIdAuth_ProviderUrl := "https://id.example";
     AnonymousAuth := true;
     Kerberos_KeytabLocation := "/etc/armada.keytab" |}.

(** The server a returning [createServer] hands back. *)
Definition server_of (c : Run Action GrpcServer) : GrpcServer :=
  match outcome c with
  | Returned server => server
  | _ => {| MaxConnectionIdle := 0; streamInterceptors := [];
            unaryInterceptors := [] |}
  end.

(** A node that evicts what runs on it, yet is not closed to scheduling by
    a NoSchedule taint. *)
Definition node_evicting : Node :=
  {| Node_Name := "node-d"; Node_Unschedulable := false;
     Node_Taints := [ {| Key := "node.kubernetes.io/unreachable"; Value := "";
                         Effect := "NoExecute" |};
                      {| Key := "spot"; Value := "true";
                         Effect := "PreferNoSchedule" |} ];
     Node_Allocatable := cpu 2000 |}.

End sample.


(** ** Reading the traces of the service and of the server *)

Module service_view.
Import service.

(** A call of the usage client. *)
Definition is_report (a : Action) : bool :=
  match a with
  | ReportUsage _ => true
  | Log _ _ => false
  end.

(** The entry [getUsageByQueue] writes for a pod without the queue label. *)
Definition anomaly (pod : Pod) : Action :=
  Log ErrorLevel
    ("Pod " +:+ Pod_Name pod +:+
     " found not belonging to a queue, not reporting its usage").

(** The pod carries the queue label. *)
Definition has_queue (Queue : string) (pod : Pod) : Prop :=
  is_Some (Pod_Labels pod !! Queue).

#[export] Instance has_queue_dec Queue pod : Decision (has_queue Queue pod).
Proof. unfold has_queue. apply _. Defined.

(** The pod lowers the available capacity computed from [nodes]. *)
Definition counted (IsManagedPod : Pod -> bool) (nodes : list Node) (pod : Pod)
  : Prop :=
  requires_resource IsManagedPod (filterAvailableProcessingNodes nodes) pod /\
  non_completed pod.

#[export] Instance counted_dec IsManagedPod nodes pod :
  Decision (counted IsManagedPod nodes pod).
Proof. unfold counted. apply _. Defined.

(** The entry [ReportClusterUtilisation] writes when the usage client
    answers with an error. *)
Definition report_failure (result : option error) : list Action :=
  match result with
  | Some err => [Log ErrorLevel ("Failed to report cluster usage because " +:+ err)]
  | None => []
  end.

End service_view.

Module armada_view.
Import armada.

(** The authentication services behind the interceptors of a server. *)
Definition auth_services (server : GrpcServer) : list AuthService :=
  match unaryInterceptors server with
  | grpc_auth services :: _ => services
  | _ => []
  end.

(** The order in which [createServer] considers the services. *)
Definition auth_rank (a : AuthService) : nat :=
  match a with
  | BasicAuthService _ => 0
  | OpenIdAuthService _ => 1
  | AnonymousAuthService => 2
  | KerberosAuthService _ => 3
  end.

Definition is_kafka_action (a : Action) : bool :=
  match a with
  | KafkaNewWriter _ | KafkaNewReader _ _ _ _
  | TaskRegister KafkaProcessEvents _ _ => true
  | _ => false
  end.

Definition is_nats_action (a : Action) : bool :=
  match a with
  | StanConnect _ _ _ | NatsProcessorStart _ _ _ | NatsConnClose _ => true
  | _ => false
  end.

Definition is_task_register (a : Action) : bool :=
  match a with
  | TaskRegister _ _ _ => true
  | _ => false
  end.

(** Building a server or the lease manager, or starting to serve. *)
Definition is_construction (a : Action) : bool :=
  match a with
  | NewSubmitServer _ | NewUsageServer _ | NewAggregatedQueueServer _
  | NewEventServer _ _ | NewLeaseManager _ _ | GoServe _ _ => true
  | _ => false
  end.

(** The repository each event server of a trace reads from. *)
Definition event_repository_of (a : Action) : option EventStore :=
  match a with
  | NewEventServer repository _ => Some repository
  | _ => None
  end.

(** The NATS connection [Serve] asks for. *)
Definition nats_conn (config : ArmadaConfig) (world : World) : NatsConn :=
  {| conn_clusterID := ClusterID (EventsNats config);
     conn_clientID := "armada-server-" +:+ NewULID world;
     conn_url := strings_Join (Servers (EventsNats config)) "," |}.

(** Whether connecting to NATS succeeds, for this configuration. *)
Definition nats_connect_result (config : ArmadaConfig) (world : World)
  : option string :=
  stan_Connect world (conn_clusterID (nats_conn config world))
    (conn_clientID (nats_conn config world)) (conn_url (nats_conn config world)).

(** The error, if any, met when the OpenId service is set up: none when no
    provider is configured. *)
Definition openid_failure (config : ArmadaConfig) (world : World) : option string :=
  if String.eqb (OpenIdAuth_ProviderUrl config) "" then None
  else NewOpenIdAuthServiceForProvider world (OpenIdAuth_ProviderUrl config).

(** The same for Kerberos: none when no keytab is configured. *)
Definition kerberos_failure (config : ArmadaConfig) (world : World) : option string :=
  if String.eqb (Kerberos_KeytabLocation config) "" then None
  else NewKerberosAuthService world (Kerberos_KeytabLocation config).

(** The NATS backend is the one [Serve] goes for. *)
Definition nats_chosen (config : ArmadaConfig) : Prop :=
  Brokers (EventsKafka config) = [] /\ Servers (EventsNats config) <> [].

(** The steps of [Serve] between the choice of the event store and the
    answer of [net.Listen]. *)
Definition steps_until_listen (config : ArmadaConfig) (es : EventStore)
  : list Action :=
  [ NewSubmitServer es;
    NewUsageServer (PriorityHalfTime config);
    NewAggregatedQueueServer es;
    NewEventServer (RedisEventRepository (EventRetention config)) es;
    NewLeaseManager es (ExpireAfter (Scheduling_Lease config));
    TaskRegister ExpireLeases (ExpiryLoopInterval (Scheduling_Lease config))
      "lease_expiry";
    NetListen (GrpcPort config) ].


(** The entry written when the port cannot be listened on. *)
Definition listen_failure (err : string) : Action :=
  Log FatalLevel "failed to listen: %v" [ArgError err].

End armada_view.


(** * Properties *)

(** ** Job-id extraction *)

Section JobId.
Import events.

Lemma carries_job_id_fun e id1 id2 :
  carries_job_id e id1 -> carries_job_id e id2 -> id1 = id2.
Proof. intros H1 H2. destruct H1; inversion H2; reflexivity. Qed.

Lemma carries_no_job_id_nil : carries_no_job_id EventSequence_Event_nil.
Proof. intros id H. inversion H. Defined.

Lemma carries_no_job_id_other name :
  carries_no_job_id (EventSequence_Event_other name).
Proof. intros id H. inversion H. Defined.

(** C2. [JobIdFromEvent] answers on every event.  For each of the nine
    variants that carry a job id it returns that id and a nil error; for
    every other value of [event.Event] it returns the invalid-argument
    error, naming the field and holding the offending value. *)
Theorem JobIdFromEvent_total (event : EventSequence_Event) :
  (exists id, carries_job_id (Event event) id /\
              JobIdFromEvent event = (id, None)) \/
  (carries_no_job_id (Event event) /\
   exists id, JobIdFromEvent event = (id, Some (invalid_argument (Event event))) /\
              invalid_argument (Event event) =
                WithStack (ErrInvalidArgument "event.Event" (Event event)
                             "event doesn't contain a jobId")).
Proof.
  destruct event as [e]; cbn [Event].
  destruct e as [m|m|m|m|m|m|m|m|m| |name];
    try (left; exists (JobId m); split; [constructor | reflexivity]).
  - right. split; [apply carries_no_job_id_nil|]. eexists. split; reflexivity.
  - right. split; [apply carries_no_job_id_other|]. eexists. split; reflexivity.
Qed.

(** C10. On a variant that carries no job id, the identifier returned
    next to the error is not nil: it is the Uuid with both halves zero. *)
Theorem JobIdFromEvent_zero_uuid (event : EventSequence_Event) :
  carries_no_job_id (Event event) ->
  exists err,
    JobIdFromEvent event = (Some {| High64 := 0; Low64 := 0 |}, Some err) /\
    fst (JobIdFromEvent event) <> None.
Proof.
  intros Hno. destruct event as [e]; cbn [Event] in Hno.
  destruct e as [m|m|m|m|m|m|m|m|m| |name];
    try (exfalso; apply (Hno (JobId m)); constructor);
    (eexists; split; [reflexivity | discriminate]).
Qed.

Lemma JobIdFromEvent_zero_uuid_witness :
  exists err,
    JobIdFromEvent (mkEvent EventSequence_Event_nil)
      = (Some {| High64 := 0; Low64 := 0 |}, Some err) /\
    fst (JobIdFromEvent (mkEvent EventSequence_Event_nil))
      <> None.
Proof.
  apply (JobIdFromEvent_zero_uuid
           (mkEvent EventSequence_Event_nil)).
  apply carries_no_job_id_nil.
Defined.

End JobId.

(** ** Arithmetic of ComputeResources *)

Section Resources.

Lemma quantity_empty name : quantity ∅ name = 0.
Proof. unfold quantity. rewrite lookup_empty. reflexivity. Qed.

Lemma quantity_Add a b name :
  quantity (Add a b) name = quantity a name + quantity b name.
Proof.
  unfold quantity, Add. rewrite lookup_union_with.
  destruct (a !! name), (b !! name); simpl; lia.
Qed.

Lemma quantity_Sub a b name :
  quantity (Sub a b) name = quantity a name - quantity b name.
Proof.
  unfold quantity, Sub. rewrite lookup_merge.
  destruct (a !! name), (b !! name); simpl; lia.
Qed.

Lemma Add_comm a b : Add a b = Add b a.
Proof.
  apply map_eq. intros name. unfold Add. rewrite !lookup_union_with.
  destruct (a !! name), (b !! name); simpl; f_equal; lia.
Qed.

Lemma Add_assoc a b c : Add a (Add b c) = Add (Add a b) c.
Proof.
  apply map_eq. intros name. unfold Add. rewrite !lookup_union_with.
  destruct (a !! name), (b !! name), (c !! name); simpl; f_equal; lia.
Qed.

Lemma Add_empty_l a : Add ∅ a = a.
Proof.
  apply map_eq. intros name. unfold Add. rewrite lookup_union_with, lookup_empty.
  destruct (a !! name); reflexivity.
Qed.

End Resources.

(** ** Resource accounting *)

Section Accounting.
Import service.

Variable Queue : string.
Variable IsManagedPod : Pod -> bool.

(** *** Loops that append are filters *)

Lemma foldl_append_filter {A} (f : A -> bool) (l acc : list A) :
  foldl (fun acc x => if f x then acc ++ [x] else acc) acc l
  = acc ++ List.filter f l.
Proof.
  revert acc. induction l as [|x l IH]; intros acc; simpl.
  - by rewrite app_nil_r.
  - rewrite IH. destruct (f x); [|done]. by rewrite <- app_assoc.
Qed.

Lemma filter_reflect {A} (f : A -> bool) (P : A -> Prop)
    `{!forall x, Decision (P x)} (l : list A) :
  (forall x, f x = true <-> P x) -> List.filter f l = filter P l.
Proof.
  intros Hf. induction l as [|x l IH]; [done|].
  simpl. rewrite filter_cons, IH.
  destruct (decide (P x)) as [HP|HP], (f x) eqn:Hfx; try done.
  - apply Hf in HP. congruence.
  - apply Hf in Hfx. contradiction.
Qed.

(** *** Nodes *)

Lemma isAvailableProcessingNode_spec node :
  isAvailableProcessingNode node = true <-> available_processing_node node.
Proof.
  unfold isAvailableProcessingNode, available_processing_node.
  destruct (Node_Unschedulable node); [intuition discriminate|].
  induction (Node_Taints node) as [|taint taints IH].
  - split; [intros _; split; [done | constructor] | done].
  - destruct (String.eqb (Effect taint) TaintEffectNoSchedule) eqn:He.
    + apply String.eqb_eq in He. split; [discriminate|].
      intros [_ HF]. inversion HF; subst. contradiction.
    + apply String.eqb_neq in He. rewrite IH. split.
      * intros [_ HF]. split; [done|]. by constructor.
      * intros [_ HF]. split; [done|]. by inversion HF.
Qed.

Lemma filterAvailableProcessingNodes_spec nodes :
  filterAvailableProcessingNodes nodes = spec_processing_nodes nodes.
Proof.
  unfold filterAvailableProcessingNodes, spec_processing_nodes.
  rewrite foldl_append_filter. simpl.
  apply filter_reflect, isAvailableProcessingNode_spec.
Qed.

(** *** Pods *)

Lemma nodeMap_lookup (nodes : list Node) (init : gmap string Node) name :
  is_Some (foldl (fun nodeMap node => <[Node_Name node := node]> nodeMap) init nodes
             !! name)
  <-> name ∈ (Node_Name <$> nodes) \/ is_Some (init !! name).
Proof.
  revert init. induction nodes as [|node nodes IH]; intros init; simpl.
  - rewrite elem_of_nil. tauto.
  - rewrite IH, elem_of_cons, lookup_insert_is_Some. split.
    + intros [H|[H|[_ H]]]; auto.
    + intros [[H|H]|H]; auto.
      destruct (decide (Node_Name node = name)); auto.
Qed.

Lemma requires_resource_reflect (workerNodes : list Node) pod :
  match foldl (fun nodeMap node => <[Node_Name node := node]> nodeMap)
              (∅ : gmap string Node) workerNodes !! Pod_NodeName pod with
  | Some _ => true
  | None => IsManagedPod pod && String.eqb (Pod_NodeName pod) ""
  end = true <-> requires_resource IsManagedPod workerNodes pod.
Proof.
  pose proof (nodeMap_lookup workerNodes ∅ (Pod_NodeName pod)) as Hmap.
  unfold requires_resource, bound_to, pending_managed.
  destruct (foldl _ _ _ !! _) as [node|] eqn:Hlook.
  - split; [|done]. intros _. left.
    destruct Hmap as [[H|H] _]; [by eexists|done|].
    rewrite lookup_empty in H. by destruct H.
  - rewrite andb_true_iff, String.eqb_eq. split; [by right|].
    intros [Hbound|H]; [|done].
    destruct Hmap as [_ Hmap]. destruct Hmap as [? Hsome]; [by left|].
    discriminate.
Qed.

Lemma getAllPodsRequiringResourceOnProcessingNodes_spec allPods workerNodes :
  getAllPodsRequiringResourceOnProcessingNodes IsManagedPod allPods workerNodes
  = filter (requires_resource IsManagedPod workerNodes) allPods.
Proof.
  unfold getAllPodsRequiringResourceOnProcessingNodes.
  set (nodeMap := foldl _ ∅ workerNodes).
  set (selected := fun pod : Pod =>
                     match nodeMap !! Pod_NodeName pod with
                     | Some _ => true
                     | None => IsManagedPod pod && String.eqb (Pod_NodeName pod) ""
                     end).
  transitivity (List.filter selected allPods).
  - change (List.filter selected allPods) with ([] ++ List.filter selected allPods).
    rewrite <- foldl_append_filter.
    cut (forall acc : list Pod,
            foldl (fun acc pod =>
                     match nodeMap !! Pod_NodeName pod with
                     | Some _ => acc ++ [pod]
                     | None =>
                         if IsManagedPod pod && String.eqb (Pod_NodeName pod) ""
                         then acc ++ [pod] else acc
                     end) acc allPods
            = foldl (fun acc pod => if selected pod then acc ++ [pod] else acc)
                acc allPods); [intros H; apply H|].
    induction allPods as [|pod pods IH]; intros acc; [done|].
    simpl. rewrite IH. f_equal. unfold selected.
    destruct (nodeMap !! Pod_NodeName pod); [done|].
    by destruct (IsManagedPod pod && String.eqb (Pod_NodeName pod) "").
  - apply filter_reflect. intros pod. apply requires_resource_reflect.
Qed.

Lemma FilterNonCompletedPods_spec pods :
  FilterNonCompletedPods pods = filter non_completed pods.
Proof.
  apply filter_reflect. intros pod.
  unfold IsInTerminalState, non_completed.
  destruct (Pod_Phase pod); simpl; intuition congruence.
Qed.

(** *** Totals *)

Lemma quantity_foldl_Add {A} (resources : A -> ComputeResources)
    (l : list A) (acc : ComputeResources) name :
  quantity (foldl (fun total x => Add total (resources x)) acc l) name
  = quantity acc name + total_quantity resources l name.
Proof.
  revert acc. induction l as [|x l IH]; intros acc; simpl; [lia|].
  rewrite IH, quantity_Add. lia.
Qed.

Lemma quantity_CalculateTotalResource nodes name :
  quantity (CalculateTotalResource nodes) name
  = total_quantity Node_Allocatable nodes name.
Proof.
  unfold CalculateTotalResource.
  rewrite quantity_foldl_Add, quantity_empty. lia.
Qed.

Lemma quantity_CalculateTotalResourceLimit pods name :
  quantity (CalculateTotalResourceLimit pods) name
  = total_quantity Pod_Resources pods name.
Proof.
  unfold CalculateTotalResourceLimit.
  rewrite quantity_foldl_Add, quantity_empty. lia.
Qed.

Lemma CalculateTotalResourceLimit_one pod :
  CalculateTotalResourceLimit [pod] = Pod_Resources pod.
Proof. unfold CalculateTotalResourceLimit. simpl. apply Add_empty_l. Qed.

(** *** Claims on nodes, pods and available capacity *)

Lemma spec_demand_code nodes pods name :
  total_quantity Pod_Resources
    (FilterNonCompletedPods
       (getAllPodsRequiringResourceOnProcessingNodes IsManagedPod pods
          (filterAvailableProcessingNodes nodes))) name
  = spec_demand IsManagedPod nodes pods name.
Proof.
  unfold spec_demand.
  rewrite FilterNonCompletedPods_spec,
    getAllPodsRequiringResourceOnProcessingNodes_spec,
    filterAvailableProcessingNodes_spec, list_filter_filter.
  f_equal. apply list_filter_iff. intros pod. tauto.
Qed.

(** C1. When the node and pod snapshots are read without error,
    [GetAvailableClusterCapacity] returns, with a nil error, the total
    capacity of the available processing nodes minus the sum of the
    resources of the non-completed pods bound to those nodes or, for
    managed pods, pending; the difference is taken exactly for every
    resource name, so it is negative wherever the demand exceeds the
    capacity. *)
Theorem GetAvailableClusterCapacity_exact svc nodes pods :
  NodeLister svc Everything = (nodes, None) ->
  PodLister svc Everything = (pods, None) ->
  exists available,
    GetAvailableClusterCapacity IsManagedPod svc = (available, None) /\
    (forall name,
        quantity available name = spec_available IsManagedPod nodes pods name) /\
    (forall name,
        spec_capacity nodes name < spec_demand IsManagedPod nodes pods name ->
        quantity available name < 0).
Proof.
  intros Hnodes Hpods.
  unfold GetAvailableClusterCapacity, getAllAvailableProcessingNodes.
  rewrite Hnodes, Hpods. eexists. split; [reflexivity|].
  assert (forall name,
             quantity
               (Sub (DeepCopy (CalculateTotalResource (filterAvailableProcessingNodes nodes)))
                  (CalculateTotalResourceLimit
                     (FilterNonCompletedPods
                        (getAllPodsRequiringResourceOnProcessingNodes IsManagedPod pods
                           (filterAvailableProcessingNodes nodes))))) name
             = spec_available IsManagedPod nodes pods name) as Heq.
  { intros name. unfold DeepCopy, spec_available, spec_capacity.
    rewrite quantity_Sub, quantity_CalculateTotalResource,
      quantity_CalculateTotalResourceLimit, spec_demand_code.
    by rewrite filterAvailableProcessingNodes_spec. }
  split; [exact Heq|].
  intros name Hover. rewrite Heq. unfold spec_available. lia.
Qed.


(** C4. A pod is selected as requiring resource on the processing nodes
    exactly when it is in the pod list and either its node assignment
    names one of the processing nodes given, or it is a managed pod with
    an empty node assignment; a pod assigned to any other node is not
    selected. *)
Theorem pods_requiring_resource_iff (allPods : list Pod) (workerNodes : list Node)
    (pod : Pod) :
  (pod ∈ getAllPodsRequiringResourceOnProcessingNodes IsManagedPod allPods workerNodes
   <-> pod ∈ allPods /\
       (bound_to workerNodes pod \/ pending_managed IsManagedPod pod)) /\
  ((Pod_NodeName pod <> "" /\ ~ bound_to workerNodes pod) ->
   (pod ∉ getAllPodsRequiringResourceOnProcessingNodes IsManagedPod allPods workerNodes)).
Proof.
  rewrite getAllPodsRequiringResourceOnProcessingNodes_spec.
  split.
  - rewrite list_elem_of_filter. unfold requires_resource. tauto.
  - intros [Hname Hnot]. rewrite list_elem_of_filter.
    unfold requires_resource, pending_managed. tauto.
Qed.

(** *** Usage per queue *)

Lemma getUsageByQueue_step_returns usage pod :
  exists logged usage',
    getUsageByQueue_step Queue usage pod = (logged, Returned usage').
Proof.
  unfold getUsageByQueue_step.
  destruct (Pod_Labels pod !! Queue) as [queue|]; [|by eexists _, _].
  destruct (usage !! queue); by eexists _, _.
Qed.

Lemma getUsageByQueue_loop_returns pods usage :
  exists logged usage',
    getUsageByQueue_loop Queue pods usage = (logged, Returned usage').
Proof.
  revert usage. induction pods as [|pod pods IH]; intros usage; simpl.
  - by eexists _, _.
  - destruct (getUsageByQueue_step_returns usage pod) as (t1 & usage1 & H1).
    destruct (IH usage1) as (t2 & usage2 & H2).
    exists (t1 ++ t2), usage2.
    unfold mbind, Run_bind, run_bind. by rewrite H1, H2.
Qed.

Lemma getUsageByQueue_loop_snoc pods pod usage logged usage' :
  getUsageByQueue_loop Queue pods usage = (logged, Returned usage') ->
  getUsageByQueue_loop Queue (pods ++ [pod]) usage
  = let '(logged', o) := getUsageByQueue_step Queue usage' pod in
    (logged ++ logged', o).
Proof.
  revert usage logged. induction pods as [|p pods IH]; intros usage logged; simpl.
  - intros [= <- <-]. unfold mbind, Run_bind, run_bind.
    destruct (getUsageByQueue_step_returns usage pod) as (t1 & usage1 & H1).
    rewrite H1. simpl. by rewrite app_nil_r.
  - unfold mbind, Run_bind, run_bind.
    destruct (getUsageByQueue_step_returns usage p) as (t1 & usage1 & H1).
    rewrite H1.
    destruct (getUsageByQueue_loop_returns pods usage1) as (t2 & usage2 & H2).
    rewrite H2. intros [= <- <-].
    rewrite (IH _ _ H2).
    destruct (getUsageByQueue_step Queue usage2 pod) as [t3 o].
    by rewrite app_assoc.
Qed.

Lemma getUsageByQueue_totals pods :
  exists logged usage,
    getUsageByQueue Queue pods = (logged, Returned usage) /\
    forall queue,
      match usage !! queue with
      | None => pods_of_queue Queue queue pods = []
      | Some total =>
          pods_of_queue Queue queue pods <> [] /\
          forall name,
            quantity total name
            = total_quantity Pod_Resources (pods_of_queue Queue queue pods) name
      end.
Proof.
  unfold getUsageByQueue, pods_of_queue.
  induction pods as [|pod pods IH] using rev_ind.
  - exists [], ∅. split; [done|]. intros queue. by rewrite lookup_empty.
  - destruct IH as (logged & usage & Hrun & Htot).
    rewrite (getUsageByQueue_loop_snoc _ pod _ _ _ Hrun).
    unfold getUsageByQueue_step.
    destruct (Pod_Labels pod !! Queue) as [q|] eqn:Hq.
    + assert (forall name l,
                 total_quantity Pod_Resources (l ++ [pod]) name
                 = total_quantity Pod_Resources l name
                   + quantity (Pod_Resources pod) name) as Hsnoc.
      { intros name l. induction l as [|x l IHl]; simpl; lia. }
      destruct (usage !! q) as [total|] eqn:Hu; simpl;
        eexists _, _; (split; [reflexivity|]); intros queue;
        rewrite filter_app, filter_cons, filter_nil;
        specialize (Htot queue);
        (destruct (decide (q = queue)) as [->|Hne];
         [ rewrite lookup_insert_eq, Hu in *;
           rewrite decide_True by done
         | rewrite lookup_insert_ne by done;
           rewrite decide_False by congruence; by rewrite app_nil_r ]).
      * destruct Htot as [Hne Htot]. split; [by destruct (filter _ pods)|].
        intros name.
        rewrite Hsnoc, quantity_Add, Htot, CalculateTotalResourceLimit_one. lia.
      * rewrite Htot. simpl. split; [done|]. intros name.
        rewrite CalculateTotalResourceLimit_one. lia.
    + simpl. eexists _, _. split; [reflexivity|]. intros queue.
      rewrite filter_app, filter_cons, filter_nil.
      rewrite decide_False by congruence. rewrite app_nil_r. apply Htot.
Qed.

(** C6. Usage is grouped by the queue label.  After any list of pods the
    aggregation has returned a map in which a queue is present exactly
    when some pod of the list carries it, with the sum of the resources of
    those pods; pods without the label are in no total.  The next pod,
    when it has no queue label, leaves every total as it is and adds one
    error entry to the log, and the aggregation goes on; when its queue
    has no total yet, its resources become the total; otherwise its
    resources are added to the total that is there. *)
Theorem getUsageByQueue_groups_by_queue (pods : list Pod) (pod : Pod) :
  exists logged usage,
    getUsageByQueue Queue pods = (logged, Returned usage) /\
    (forall queue,
        match usage !! queue with
        | None => pods_of_queue Queue queue pods = []
        | Some total =>
            pods_of_queue Queue queue pods <> [] /\
            forall name,
              quantity total name
              = total_quantity Pod_Resources (pods_of_queue Queue queue pods) name
        end) /\
    match Pod_Labels pod !! Queue with
    | None =>
        getUsageByQueue Queue (pods ++ [pod])
        = (logged ++
             [Log ErrorLevel
                ("Pod " +:+ Pod_Name pod +:+
                 " found not belonging to a queue, not reporting its usage")],
           Returned usage)
    | Some queue =>
        match usage !! queue with
        | None =>
            getUsageByQueue Queue (pods ++ [pod])
            = (logged,
               Returned (<[queue := CalculateTotalResourceLimit [pod]]> usage))
        | Some total =>
            getUsageByQueue Queue (pods ++ [pod])
            = (logged,
               Returned (<[queue := Add total (CalculateTotalResourceLimit [pod])]>
                           usage))
        end
    end /\
    CalculateTotalResourceLimit [pod] = Pod_Resources pod.
Proof.
  destruct (getUsageByQueue_totals pods) as (logged & usage & Hrun & Htot).
  exists logged, usage. split; [exact Hrun|]. split; [exact Htot|].
  unfold getUsageByQueue in *.
  rewrite (getUsageByQueue_loop_snoc _ pod _ _ _ Hrun).
  unfold getUsageByQueue_step.
  split; [|apply CalculateTotalResourceLimit_one].
  destruct (Pod_Labels pod !! Queue) as [queue|]; [|reflexivity].
  destruct (usage !! queue); simpl; by rewrite app_nil_r.
Qed.

(** C7. For two pods of the same queue the order of processing does not
    matter: both orders log nothing and give the queue the one total, the
    sum of the two pods' resources. *)
Theorem getUsageByQueue_commutes (A B : Pod) (queue : string) :
  Pod_Labels A !! Queue = Some queue ->
  Pod_Labels B !! Queue = Some queue ->
  getUsageByQueue Queue [A; B] = getUsageByQueue Queue [B; A] /\
  getUsageByQueue Queue [A; B]
  = ([], Returned {[ queue := Add (Pod_Resources A) (Pod_Resources B) ]}).
Proof.
  intros HA HB.
  assert (forall P1 P2 : Pod,
             Pod_Labels P1 !! Queue = Some queue ->
             Pod_Labels P2 !! Queue = Some queue ->
             getUsageByQueue Queue [P1; P2]
             = ([], Returned {[ queue := Add (Pod_Resources P1) (Pod_Resources P2) ]}))
    as Hpair.
  { intros P1 P2 H1 H2.
    unfold getUsageByQueue, getUsageByQueue_loop, getUsageByQueue_step.
    rewrite H1, lookup_empty, !CalculateTotalResourceLimit_one.
    unfold mbind, mret, Run_bind, Run_ret, run_bind, run_ret.
    rewrite H2, lookup_insert_eq. simpl.
    by rewrite insert_insert_eq, insert_empty. }
  split; [|by apply Hpair].
  rewrite (Hpair A B HA HB), (Hpair B A HB HA). by rewrite Add_comm.
Qed.

(** C5. When listing the nodes fails, or listing the managed pods fails,
    [ReportClusterUtilisation] does one thing only: it writes one error
    entry that carries the failure.  No report reaches the usage client,
    and the call returns. *)
Theorem ReportClusterUtilisation_aborts (svc : ClusterUtilisationService) (now : Z) :
  snd (NodeLister svc Everything) <> None \/
  snd (PodLister svc ManagedPodSelector) <> None ->
  exists err,
    (snd (NodeLister svc Everything) = Some err \/
     snd (PodLister svc ManagedPodSelector) = Some err) /\
    ReportClusterUtilisation Queue svc now
    = ([Log ErrorLevel
          ("Failed to get required information to report cluster usage because "
             +:+ err)],
       Returned tt) /\
    (forall report,
        ReportUsage report ∉ trace (ReportClusterUtilisation Queue svc now)) /\
    outcome (ReportClusterUtilisation Queue svc now) = Returned tt.
Proof.
  intros Hfail.
  unfold ReportClusterUtilisation, getAllAvailableProcessingNodes,
    getAllActiveManagedPods.
  destruct (NodeLister svc Everything) as [nodes [err|]] eqn:Hn; simpl in *.
  - exists err. split; [by left|]. split; [reflexivity|].
    split; [|reflexivity]. intros report Hin.
    apply list_elem_of_singleton in Hin. discriminate.
  - destruct (PodLister svc ManagedPodSelector) as [pods [err|]] eqn:Hp; simpl in *.
    + exists err. split; [by right|]. split; [reflexivity|].
      split; [|reflexivity]. intros report Hin.
      apply list_elem_of_singleton in Hin. discriminate.
    + by destruct Hfail.
Qed.

End Accounting.

(** ** Server wiring *)

Section Wiring.
Import armada.

Lemma createServer_outcome config world :
  (exists server, createServer config world = ([], Returned server)) \/
  (exists err, createServer config world = ([], Panicked err)).
Proof.
  unfold createServer.
  destruct (negb (String.eqb (OpenIdAuth_ProviderUrl config) ""));
    [destruct (NewOpenIdAuthServiceForProvider world _);
     [right; by eexists|]|];
    (destruct (negb (String.eqb (Kerberos_KeytabLocation config) ""));
     [destruct (NewKerberosAuthService world _); [right; by eexists|]|]);
    left; by eexists.
Qed.

Lemma len_positive {A} (l : list A) :
  (0 <? length l)%nat = true <-> l <> [].
Proof. destruct l; simpl; split; try done. Qed.

Lemma len_zero {A} (l : list A) :
  (0 <? length l)%nat = false <-> l = [].
Proof. destruct l; simpl; split; try done. Qed.

Lemma selectEventStore_returned config world redis t es stopSubscription :
  selectEventStore config world redis = (t, Returned (es, stopSubscription)) ->
  selected config world redis t es stopSubscription.
Proof.
  unfold selectEventStore.
  destruct (0 <? length (Brokers (EventsKafka config)))%nat eqn:Hb.
  - apply len_positive in Hb.
    cbn -[Z.mul Millisecond]. intros [= <- <- <-]. by apply selected_kafka.
  - apply len_zero in Hb.
    destruct (0 <? length (Servers (EventsNats config)))%nat eqn:Hs.
    + apply len_positive in Hs.
      cbn -[strings_Join String.append].
      destruct (stan_Connect world _ _ _) eqn:Hc;
        cbn -[strings_Join String.append]; [discriminate|].
      intros [= <- <- <-].
      by apply (selected_nats config world redis
                  {| conn_clusterID := ClusterID (EventsNats config);
                     conn_clientID := "armada-server-" +:+ NewULID world;
                     conn_url := strings_Join (Servers (EventsNats config)) "," |}).
    + apply len_zero in Hs. cbn. intros [= <- <- <-]. by apply selected_redis.
Qed.

Lemma Serve_returned config world stop wg :
  outcome (Serve config world) = Returned (stop, wg) ->
  exists server t es stopSubscription,
    selected config world (RedisEventRepository (EventRetention config))
      t es stopSubscription /\
    trace (Serve config world) = t ++ wiring_steps config server es /\
    stop = (stopSubscription ;; emit (TaskStopAll (Second * 2)) ;;
            emit GrpcGracefulStop).
Proof.
  unfold Serve.
  destruct (createServer_outcome config world) as [[server Hs]|[err Hs]];
    rewrite Hs; [|discriminate].
  unfold mbind at 1, Run_bind at 1, run_bind at 1.
  destruct (selectEventStore config world _) as [t [[es stopSub]|err|code]] eqn:Hsel;
    [|discriminate|discriminate].
  apply selectEventStore_returned in Hsel.
  unfold mbind at 1, Run_bind at 1, run_bind at 1.
  destruct (net_Listen world (GrpcPort config)) as [err|]; simpl; [discriminate|].
  intros [= <- <-]. by exists server, t, es, stopSub.
Qed.

(** [Serve] returns when no authentication service fails to start, the
    NATS connection (if that backend is chosen) is made, and the port can
    be listened on. *)
Lemma Serve_returns config world :
  (exists server, createServer config world = ([], Returned server)) ->
  (Brokers (EventsKafka config) = [] ->
   Servers (EventsNats config) <> [] ->
   stan_Connect world (ClusterID (EventsNats config))
     ("armada-server-" +:+ NewULID world)
     (strings_Join (Servers (EventsNats config)) ",") = None) ->
  net_Listen world (GrpcPort config) = None ->
  exists stop wg, outcome (Serve config world) = Returned (stop, wg).
Proof.
  intros [server Hs] Hconn Hlisten. unfold Serve. rewrite Hs.
  unfold mbind at 1, Run_bind at 1, run_bind at 1.
  assert (exists t r,
             selectEventStore config world
               (RedisEventRepository (EventRetention config))
             = (t, Returned r)) as (t & [es stopSub] & Hsel).
  { unfold selectEventStore.
    destruct (0 <? length (Brokers (EventsKafka config)))%nat eqn:Hb;
      [by eexists _, _|].
    apply len_zero in Hb.
    destruct (0 <? length (Servers (EventsNats config)))%nat eqn:Hn;
      [|by eexists _, _].
    apply len_positive in Hn.
    cbn -[strings_Join String.append]. rewrite (Hconn Hb Hn). by eexists _, _. }
  rewrite Hsel. unfold mbind at 1, Run_bind at 1, run_bind at 1.
  rewrite Hlisten. by eexists _, _.
Qed.

(** C9. In a [Serve] that returns, the event store handed to the submit
    server, the aggregated queue server, the event server and the lease
    manager is chosen by a fixed order of precedence.  With a non-empty
    Kafka broker list it is the Kafka event store, and its processor is
    registered as a task polled every 100 ms, whatever the NATS server
    list holds (no NATS connection is made, no NATS processor started).
    Otherwise, with a non-empty NATS server list, it is the NATS event
    store, whose processor is started once.  Otherwise it is the Redis
    event repository, and no processor is started or registered. *)
Theorem Serve_event_store_precedence config world stop wg :
  outcome (Serve config world) = Returned (stop, wg) ->
  let t := trace (Serve config world) in
  let redis := RedisEventRepository (EventRetention config) in
  (Brokers (EventsKafka config) <> [] ->
   event_stores_used t = replicate 4 (KafkaEventStore (EventsKafka config)) /\
   filter is_processor t
   = [TaskRegister KafkaProcessEvents (100 * Millisecond) "kafka_redis_processor"]) /\
  (Brokers (EventsKafka config) = [] -> Servers (EventsNats config) <> [] ->
   exists conn,
     event_stores_used t
     = replicate 4 (NatsEventStore conn (Subject (EventsNats config))) /\
     filter is_processor t
     = [NatsProcessorStart conn (Subject (EventsNats config))
          (QueueGroup (EventsNats config))]) /\
  (Brokers (EventsKafka config) = [] -> Servers (EventsNats config) = [] ->
   event_stores_used t = replicate 4 redis /\
   filter is_processor t = []).
Proof.
  intros Hret t redis.
  destruct (Serve_returned config world stop wg Hret)
    as (server & t0 & es & stopSub & Hsel & Ht & _).
  subst t. rewrite Ht. clear Ht Hret.
  destruct Hsel as [Hb|conn Hb Hn Hconn Hc|Hb Hn].
  - split; [|split]; [intros _|intros Hb'; contradiction|intros Hb'; contradiction].
    split; reflexivity.
  - split; [|split]; [intros Hb'; contradiction|intros _ _|intros _ Hn'; contradiction].
    exists conn. split; reflexivity.
  - split; [|split]; [intros Hb'; contradiction|intros _ Hn'; contradiction|intros _ _].
    split; reflexivity.
Qed.

(** C8. The closure returned by [Serve] runs its steps in one order: first
    the closing of the streaming subscription, when there is one (the NATS
    connection, whose processor [Serve] started); then the stop of the task
    manager with its two-second timeout; then the graceful stop of the
    server.  It returns, and nothing else precedes the last two steps than
    the closing. *)
Theorem Serve_stop_order config world stop wg :
  outcome (Serve config world) = Returned (stop, wg) ->
  exists closing,
    trace stop = closing ++ [TaskStopAll (2 * Second); GrpcGracefulStop] /\
    outcome stop = Returned tt /\
    filter is_stop_step closing = [] /\
    (Brokers (EventsKafka config) = [] -> Servers (EventsNats config) <> [] ->
     exists conn,
       head closing = Some (NatsConnClose conn) /\
       NatsProcessorStart conn (Subject (EventsNats config))
         (QueueGroup (EventsNats config)) ∈ trace (Serve config world)) /\
    (Brokers (EventsKafka config) <> [] \/ Servers (EventsNats config) = [] ->
     closing = []).
Proof.
  intros Hret.
  destruct (Serve_returned config world stop wg Hret)
    as (server & t0 & es & stopSub & Hsel & Ht & ->).
  rewrite Ht. clear Ht Hret.
  destruct Hsel as [Hb|conn Hb Hn Hconn Hc|Hb Hn].
  - exists []. do 3 (split; [reflexivity|]). split.
    + intros Hb'. contradiction.
    + done.
  - exists (trace (emit (NatsConnClose conn) ;;
                   match conn_Close world with
                   | Some err =>
                       emit (Log ErrorLevel "failed to close nats connection: %v"
                               [ArgError err])
                   | None => mret tt
                   end : Run Action unit)).
    destruct (conn_Close world) as [err|];
      (do 3 (split; [reflexivity|])); (split; [|intros [?|?]; contradiction]);
      intros _ _; exists conn; (split; [reflexivity|]); set_solver.
  - exists []. do 3 (split; [reflexivity|]). split.
    + intros _ Hn'. contradiction.
    + done.
Qed.

End Wiring.

(** ** The claims on sample inputs *)

Section AccountingSamples.
Import service.

Example sample_processing_nodes :
  filterAvailableProcessingNodes sample.nodes = [sample.node_a].
Proof. reflexivity. Qed.

Example sample_pods_selected :
  getAllPodsRequiringResourceOnProcessingNodes sample.is_managed sample.pods
    [sample.node_a]
  = [sample.pod_1; sample.pod_2; sample.pod_done; sample.pod_pending].
Proof. vm_compute. reflexivity. Qed.

(** 1000 - (600 + 900 + 250): the cluster is over-committed by 750. *)
Example sample_over_commitment :
  exists available,
    GetAvailableClusterCapacity sample.is_managed sample.cluster = (available, None) /\
    quantity available "cpu" = -750.
Proof. eexists. split; [reflexivity|]. vm_compute. reflexivity. Qed.

Example sample_usage_by_queue :
  exists usage,
    getUsageByQueue sample.queue_label
      [sample.pod_1; sample.pod_unlabelled; sample.pod_pending; sample.pod_2]
    = ([Log ErrorLevel
          "Pod stray found not belonging to a queue, not reporting its usage"],
       Returned usage) /\
    usage !! "alpha" = Some (sample.cpu 1500) /\
    usage !! "beta" = Some (sample.cpu 250).
Proof. eexists. split; [reflexivity|]. split; vm_compute; reflexivity. Qed.

(** With both listers answering, one report is handed to the usage client. *)
Example sample_report_sent :
  exists report,
    ReportClusterUtilisation sample.queue_label sample.cluster 1600000000
    = ([ReportUsage report], Returned tt) /\
    ClusterId report = "cluster-1" /\
    quantity (ClusterCapacity report) "cpu" = 1000.
Proof. eexists. split; [reflexivity|]. split; vm_compute; reflexivity. Qed.

Lemma GetAvailableClusterCapacity_exact_witness :
  exists available,
    GetAvailableClusterCapacity sample.is_managed sample.cluster = (available, None) /\
    (forall name,
        quantity available name
        = spec_available sample.is_managed sample.nodes sample.pods name) /\
    (forall name,
        spec_capacity sample.nodes name
        < spec_demand sample.is_managed sample.nodes sample.pods name ->
        quantity available name < 0).
Proof.
  apply (GetAvailableClusterCapacity_exact sample.is_managed sample.cluster
           sample.nodes sample.pods); reflexivity.
Defined.

Lemma getUsageByQueue_commutes_witness :
  getUsageByQueue sample.queue_label [sample.pod_1; sample.pod_2]
  = getUsageByQueue sample.queue_label [sample.pod_2; sample.pod_1] /\
  getUsageByQueue sample.queue_label [sample.pod_1; sample.pod_2]
  = ([], Returned {[ "alpha" := Add (Pod_Resources sample.pod_1)
                                  (Pod_Resources sample.pod_2) ]}).
Proof.
  apply (getUsageByQueue_commutes sample.queue_label sample.pod_1 sample.pod_2 "alpha");
    vm_compute; reflexivity.
Defined.

Lemma ReportClusterUtilisation_aborts_witness :
  exists err,
    (snd (NodeLister sample.cluster_pods_unreadable Everything) = Some err \/
     snd (PodLister sample.cluster_pods_unreadable ManagedPodSelector) = Some err) /\
    ReportClusterUtilisation sample.queue_label sample.cluster_pods_unreadable 1600000000
    = ([Log ErrorLevel
          ("Failed to get required information to report cluster usage because "
             +:+ err)],
       Returned tt) /\
    (forall report,
        ReportUsage report
        ∉ trace (ReportClusterUtilisation sample.queue_label
                   sample.cluster_pods_unreadable 1600000000)) /\
    outcome (ReportClusterUtilisation sample.queue_label
               sample.cluster_pods_unreadable 1600000000) = Returned tt.
Proof.
  apply (ReportClusterUtilisation_aborts sample.queue_label
           sample.cluster_pods_unreadable 1600000000).
  right. simpl. discriminate.
Defined.

End AccountingSamples.

Section WiringSamples.
Import armada.

Example sample_kafka_wins :
  event_stores_used (trace (Serve sample.config_both sample.world))
  = replicate 4 (KafkaEventStore (EventsKafka sample.config_both)).
Proof. vm_compute. reflexivity. Qed.

Example sample_stop_nats :
  trace (sample.stop_of (Serve sample.config_nats sample.world)).1
  = [ NatsConnClose {| conn_clusterID := "armada-cluster";
                       conn_clientID := "armada-server-01ARZ3NDEKTSV4RRFFQ69G5FAV";
                       conn_url := "nats://nats-0:4222" |};
      TaskStopAll 2000000000;
      GrpcGracefulStop ].
Proof. vm_compute. reflexivity. Qed.

Lemma Serve_event_store_precedence_witness :
  let t := trace (Serve sample.config_both sample.world) in
  let redis := RedisEventRepository (EventRetention sample.config_both) in
  (Brokers (EventsKafka sample.config_both) <> [] ->
   event_stores_used t
   = replicate 4 (KafkaEventStore (EventsKafka sample.config_both)) /\
   filter is_processor t
   = [TaskRegister KafkaProcessEvents (100 * Millisecond) "kafka_redis_processor"]) /\
  (Brokers (EventsKafka sample.config_both) = [] ->
   Servers (EventsNats sample.config_both) <> [] ->
   exists conn,
     event_stores_used t
     = replicate 4 (NatsEventStore conn (Subject (EventsNats sample.config_both))) /\
     filter is_processor t
     = [NatsProcessorStart conn (Subject (EventsNats sample.config_both))
          (QueueGroup (EventsNats sample.config_both))]) /\
  (Brokers (EventsKafka sample.config_both) = [] ->
   Servers (EventsNats sample.config_both) = [] ->
   event_stores_used t = replicate 4 redis /\
   filter is_processor t = []).
Proof.
  apply (Serve_event_store_precedence sample.config_both sample.world
           (sample.stop_of (Serve sample.config_both sample.world)).1
           (sample.stop_of (Serve sample.config_both sample.world)).2).
  reflexivity.
Defined.

Lemma Serve_stop_order_witness :
  exists closing,
    trace (sample.stop_of (Serve sample.config_nats sample.world)).1
    = closing ++ [TaskStopAll (2 * Second); GrpcGracefulStop] /\
    outcome (sample.stop_of (Serve sample.config_nats sample.world)).1 = Returned tt /\
    filter is_stop_step closing = [] /\
    (Brokers (EventsKafka sample.config_nats) = [] ->
     Servers (EventsNats sample.config_nats) <> [] ->
     exists conn,
       head closing = Some (NatsConnClose conn) /\
       NatsProcessorStart conn (Subject (EventsNats sample.config_nats))
         (QueueGroup (EventsNats sample.config_nats))
       ∈ trace (Serve sample.config_nats sample.world)) /\
    (Brokers (EventsKafka sample.config_nats) <> [] \/
     Servers (EventsNats sample.config_nats) = [] ->
     closing = []).
Proof.
  apply (Serve_stop_order sample.config_nats sample.world
           (sample.stop_of (Serve sample.config_nats sample.world)).1
           (sample.stop_of (Serve sample.config_nats sample.world)).2).
  reflexivity.
Defined.

End WiringSamples.

(** * Further properties of the code *)

(** ** The service: failures, structure of the selections *)

Section AccountingMore.
Import service service_view.

Variable Queue : string.
Variable IsManagedPod : Pod -> bool.

Lemma run_bind_returned {E A B} (t : list E) (a : A) (k : A -> Run E B) :
  ((t, Returned a) ≫= k) = (t ++ (k a).1, (k a).2).
Proof. unfold mbind, Run_bind, run_bind. by destruct (k a). Qed.

Lemma run_bind_assoc {E A B C} (c : Run E A) (f : A -> Run E B) (g : B -> Run E C) :
  ((c ≫= f) ≫= g) = (c ≫= fun a => f a ≫= g).
Proof.
  unfold mbind, Run_bind, run_bind.
  destruct c as [t [a|err|code]]; [|done|done].
  destruct (f a) as [t1 [b|err|code]]; [|done|done].
  destruct (g b) as [t2 o]. by rewrite app_assoc.
Qed.

Lemma total_quantity_app {A} (resources : A -> ComputeResources) l1 l2 name :
  total_quantity resources (l1 ++ l2) name
  = total_quantity resources l1 name + total_quantity resources l2 name.
Proof. induction l1 as [|x l1 IH]; simpl; lia. Qed.

(** On a snapshot read without error, the quantity of every resource in the
    answer of [GetAvailableClusterCapacity]. *)
Lemma available_quantity svc nodes pods name :
  NodeLister svc Everything = (nodes, None) ->
  PodLister svc Everything = (pods, None) ->
  GetAvailableClusterCapacity IsManagedPod svc
  = (Sub (DeepCopy (CalculateTotalResource (filterAvailableProcessingNodes nodes)))
       (CalculateTotalResourceLimit
          (FilterNonCompletedPods
             (getAllPodsRequiringResourceOnProcessingNodes IsManagedPod pods
                (filterAvailableProcessingNodes nodes)))), None) /\
  quantity (GetAvailableClusterCapacity IsManagedPod svc).1 name
  = spec_available IsManagedPod nodes pods name.
Proof.
  intros Hnodes Hpods.
  unfold GetAvailableClusterCapacity, getAllAvailableProcessingNodes.
  rewrite Hnodes, Hpods. split; [reflexivity|]. cbn [fst].
  unfold DeepCopy, spec_available, spec_capacity.
  rewrite quantity_Sub, quantity_CalculateTotalResource,
    quantity_CalculateTotalResourceLimit, spec_demand_code.
  by rewrite filterAvailableProcessingNodes_spec.
Qed.

(** X1. When the node listing or the listing of all pods fails,
    [GetAvailableClusterCapacity] answers with the empty resources and an
    error that wraps the cause; a failure of the node listing comes first. *)
Theorem GetAvailableClusterCapacity_failure (svc : ClusterUtilisationService) :
  snd (NodeLister svc Everything) <> None \/
  snd (PodLister svc Everything) <> None ->
  exists err,
    (snd (NodeLister svc Everything) = Some err \/
     snd (NodeLister svc Everything) = None /\
     snd (PodLister svc Everything) = Some err) /\
    GetAvailableClusterCapacity IsManagedPod svc
    = (∅, Some ("Failed getting available cluster capacity due to: " +:+ err)).
Proof.
  intros Hfail.
  unfold GetAvailableClusterCapacity, getAllAvailableProcessingNodes.
  destruct (NodeLister svc Everything) as [nodes [err|]]; simpl in *.
  - exists err. split; [by left|reflexivity].
  - destruct (PodLister svc Everything) as [pods [err|]]; simpl in *.
    + exists err. split; [by right|reflexivity].
    + by destruct Hfail.
Qed.

(** X2. The node filter keeps the order of the snapshot: it distributes
    over concatenation, its result is a sublist of its input, and filtering
    twice is filtering once. *)
Theorem filterAvailableProcessingNodes_structure (nodes1 nodes2 : list Node) :
  filterAvailableProcessingNodes (nodes1 ++ nodes2)
  = filterAvailableProcessingNodes nodes1 ++ filterAvailableProcessingNodes nodes2 /\
  sublist (filterAvailableProcessingNodes nodes1) nodes1 /\
  filterAvailableProcessingNodes (filterAvailableProcessingNodes nodes1)
  = filterAvailableProcessingNodes nodes1.
Proof.
  rewrite !filterAvailableProcessingNodes_spec. unfold spec_processing_nodes.
  split; [apply filter_app|]. split; [apply sublist_filter|].
  rewrite list_filter_filter. apply list_filter_iff. tauto.
Qed.

(** X3. The pod selection reads nothing of the processing nodes but their
    names: two node lists with the same names, in any order and with any
    repetition, select the same pods. *)
Theorem pods_selection_depends_on_names (allPods : list Pod)
    (workerNodes workerNodes' : list Node) :
  (forall name, name ∈ (Node_Name <$> workerNodes)
                <-> name ∈ (Node_Name <$> workerNodes')) ->
  getAllPodsRequiringResourceOnProcessingNodes IsManagedPod allPods workerNodes
  = getAllPodsRequiringResourceOnProcessingNodes IsManagedPod allPods workerNodes'.
Proof.
  intros Hnames. rewrite !getAllPodsRequiringResourceOnProcessingNodes_spec.
  apply list_filter_iff. intros pod.
  unfold requires_resource, bound_to. by rewrite Hnames.
Qed.

(** X4. The pod selection keeps the order of the pod list and distributes
    over concatenation; with no processing node at all it selects exactly
    the managed pods that have no node assigned. *)
Theorem pods_selection_structure (pods1 pods2 : list Pod) (workerNodes : list Node) :
  getAllPodsRequiringResourceOnProcessingNodes IsManagedPod (pods1 ++ pods2) workerNodes
  = getAllPodsRequiringResourceOnProcessingNodes IsManagedPod pods1 workerNodes
    ++ getAllPodsRequiringResourceOnProcessingNodes IsManagedPod pods2 workerNodes /\
  sublist (getAllPodsRequiringResourceOnProcessingNodes IsManagedPod pods1 workerNodes)
    pods1 /\
  getAllPodsRequiringResourceOnProcessingNodes IsManagedPod pods1 []
  = filter (pending_managed IsManagedPod) pods1.
Proof.
  rewrite !getAllPodsRequiringResourceOnProcessingNodes_spec.
  split; [apply filter_app|]. split; [apply sublist_filter|].
  apply list_filter_iff. intros pod. unfold requires_resource, bound_to.
  rewrite fmap_nil, elem_of_nil. tauto.
Qed.

(** X5. Putting one more pod into the snapshot changes the available
    capacity by exactly that pod's resources when the pod is not completed
    and is bound to an available processing node or is a pending managed
    pod, and by nothing otherwise (a completed pod, a pod on a node that is
    not an available processing node). *)
Theorem available_capacity_one_pod (svc svc' : ClusterUtilisationService)
    (nodes : list Node) (before after : list Pod) (pod : Pod) (name : string) :
  NodeLister svc Everything = (nodes, None) ->
  NodeLister svc' Everything = (nodes, None) ->
  PodLister svc Everything = (before ++ after, None) ->
  PodLister svc' Everything = (before ++ pod :: after, None) ->
  quantity (GetAvailableClusterCapacity IsManagedPod svc').1 name
  = quantity (GetAvailableClusterCapacity IsManagedPod svc).1 name
    - (if decide (counted IsManagedPod nodes pod)
       then quantity (Pod_Resources pod) name else 0).
Proof.
  intros Hn Hn' Hp Hp'.
  destruct (available_quantity svc nodes _ name Hn Hp) as [_ ->].
  destruct (available_quantity svc' nodes _ name Hn' Hp') as [_ ->].
  unfold spec_available, spec_demand, counted.
  rewrite !filter_app, filter_cons, !total_quantity_app.
  rewrite <- filterAvailableProcessingNodes_spec.
  destruct (decide _) as [Hc|Hc]; simpl; lia.
Qed.

End AccountingMore.

(** ** The service: usage per queue and the report *)

Section UsageMore.
Import service service_view.

Variable Queue : string.

Lemma getUsageByQueue_step_labelled usage pod queue :
  Pod_Labels pod !! Queue = Some queue ->
  getUsageByQueue_step Queue usage pod
  = ([], Returned (<[queue := match usage !! queue with
                              | Some total => Add total (Pod_Resources pod)
                              | None => Pod_Resources pod
                              end]> usage)).
Proof.
  intros Hq. unfold getUsageByQueue_step.
  rewrite Hq, CalculateTotalResourceLimit_one. by destruct (usage !! queue).
Qed.

Lemma getUsageByQueue_step_unlabelled usage pod :
  Pod_Labels pod !! Queue = None ->
  getUsageByQueue_step Queue usage pod = ([anomaly pod], Returned usage).
Proof. intros Hq. unfold getUsageByQueue_step. by rewrite Hq. Qed.

(** Two steps of the loop, taken in either order, leave the same map. *)
Lemma getUsageByQueue_step_swap usage x y :
  exists tx ty usage',
    (getUsageByQueue_step Queue usage x ≫= fun u => getUsageByQueue_step Queue u y)
    = (tx ++ ty, Returned usage') /\
    (getUsageByQueue_step Queue usage y ≫= fun u => getUsageByQueue_step Queue u x)
    = (ty ++ tx, Returned usage').
Proof.
  destruct (Pod_Labels x !! Queue) as [qx|] eqn:Hx;
    destruct (Pod_Labels y !! Queue) as [qy|] eqn:Hy.
  - rewrite (getUsageByQueue_step_labelled usage x qx Hx),
      (getUsageByQueue_step_labelled usage y qy Hy), !run_bind_returned.
    rewrite (getUsageByQueue_step_labelled _ y qy Hy),
      (getUsageByQueue_step_labelled _ x qx Hx).
    exists [], []. eexists. split; [reflexivity|]. simpl. do 2 f_equal.
    destruct (decide (qx = qy)) as [->|Hne].
    + rewrite !lookup_insert_eq, !insert_insert_eq. f_equal.
      destruct (usage !! qy) as [total|].
      * by rewrite <- !Add_assoc, (Add_comm (Pod_Resources y)).
      * apply Add_comm.
    + rewrite !lookup_insert_ne by done.
      by rewrite insert_insert_ne.
  - rewrite (getUsageByQueue_step_labelled usage x qx Hx),
      (getUsageByQueue_step_unlabelled usage y Hy), !run_bind_returned.
    rewrite (getUsageByQueue_step_unlabelled _ y Hy),
      (getUsageByQueue_step_labelled _ x qx Hx).
    exists [], [anomaly y]. by eexists.
  - rewrite (getUsageByQueue_step_unlabelled usage x Hx),
      (getUsageByQueue_step_labelled usage y qy Hy), !run_bind_returned.
    rewrite (getUsageByQueue_step_unlabelled _ x Hx),
      (getUsageByQueue_step_labelled _ y qy Hy).
    exists [anomaly x], []. by eexists.
  - rewrite (getUsageByQueue_step_unlabelled usage x Hx),
      (getUsageByQueue_step_unlabelled usage y Hy), !run_bind_returned.
    rewrite (getUsageByQueue_step_unlabelled _ x Hx),
      (getUsageByQueue_step_unlabelled _ y Hy).
    exists [anomaly x], [anomaly y]. by eexists.
Qed.

Lemma getUsageByQueue_loop_permutation pods pods' :
  pods ≡ₚ pods' ->
  forall usage0, exists logged logged' usage,
    getUsageByQueue_loop Queue pods usage0 = (logged, Returned usage) /\
    getUsageByQueue_loop Queue pods' usage0 = (logged', Returned usage) /\
    logged ≡ₚ logged'.
Proof.
  induction 1 as [|x l l' Hperm IH|x y l|l l' l'' H1 IH1 H2 IH2]; intros usage0.
  - by exists [], [], usage0.
  - destruct (getUsageByQueue_step_returns Queue usage0 x) as (t1 & usage1 & Hstep).
    destruct (IH usage1) as (t & t' & usage & Hl & Hl' & Ht).
    exists (t1 ++ t), (t1 ++ t'), usage. simpl.
    rewrite Hstep, !run_bind_returned, Hl, Hl'. simpl.
    split; [done|]. split; [done|]. by rewrite Ht.
  - destruct (getUsageByQueue_step_swap usage0 x y) as (tx & ty & usage1 & Hxy & Hyx).
    destruct (getUsageByQueue_loop_returns Queue l usage1) as (t & usage & Hl).
    exists (ty ++ tx ++ t), (tx ++ ty ++ t), usage.
    change (getUsageByQueue_loop Queue (y :: x :: l) usage0)
      with (getUsageByQueue_step Queue usage0 y
              ≫= fun u => getUsageByQueue_step Queue u x
                            ≫= getUsageByQueue_loop Queue l).
    change (getUsageByQueue_loop Queue (x :: y :: l) usage0)
      with (getUsageByQueue_step Queue usage0 x
              ≫= fun u => getUsageByQueue_step Queue u y
                            ≫= getUsageByQueue_loop Queue l).
    rewrite <- !run_bind_assoc, Hxy, Hyx, !run_bind_returned, Hl. simpl.
    rewrite <- !app_assoc. split; [done|]. split; [done|].
    rewrite !app_assoc. f_equiv. apply Permutation_app_comm.
  - destruct (IH1 usage0) as (t1 & t1' & usage1 & Hl & Hl' & Ht1).
    destruct (IH2 usage0) as (t2 & t2' & usage2 & Hm & Hm' & Ht2).
    rewrite Hl' in Hm. injection Hm as <- <-.
    exists t1, t2', usage1. split; [done|]. split; [done|]. by rewrite Ht1.
Qed.

(** X6. The usage per queue does not depend on the order in which the pods
    are processed: any rearrangement of the pod list gives the same map,
    and the same log entries up to their order. *)
Theorem getUsageByQueue_permutation (pods pods' : list Pod) :
  pods ≡ₚ pods' ->
  exists logged logged' usage,
    getUsageByQueue Queue pods = (logged, Returned usage) /\
    getUsageByQueue Queue pods' = (logged', Returned usage) /\
    logged ≡ₚ logged'.
Proof. intros Hperm. by apply getUsageByQueue_loop_permutation. Qed.

Lemma getUsageByQueue_loop_log pods usage0 :
  exists usage,
    getUsageByQueue_loop Queue pods usage0
    = (anomaly <$> filter (fun pod => ~ has_queue Queue pod) pods, Returned usage) /\
    getUsageByQueue_loop Queue (filter (has_queue Queue) pods) usage0
    = ([], Returned usage).
Proof.
  revert usage0. induction pods as [|pod pods IH]; intros usage0.
  - by exists usage0.
  - rewrite !filter_cons.
    destruct (Pod_Labels pod !! Queue) as [queue|] eqn:Hq.
    + assert (has_queue Queue pod) as Hhas by (unfold has_queue; by eexists).
      rewrite decide_False by tauto.
      rewrite decide_True by done. simpl.
      rewrite (getUsageByQueue_step_labelled _ pod queue Hq), !run_bind_returned.
      destruct (IH (<[queue := match usage0 !! queue with
                               | Some total => Add total (Pod_Resources pod)
                               | None => Pod_Resources pod
                               end]> usage0)) as (usage & -> & ->).
      by exists usage.
    + assert (~ has_queue Queue pod) as Hhas
        by (unfold has_queue; rewrite Hq; by intros [? ?]).
      rewrite decide_True by done.
      rewrite decide_False by done. simpl.
      rewrite (getUsageByQueue_step_unlabelled _ pod Hq), !run_bind_returned.
      destruct (IH usage0) as (usage & -> & ->).
      by exists usage.
Qed.

(** X7. The log of the aggregation holds one entry for each pod without
    the queue label, in the order of the pods, and nothing else; leaving
    those pods out of the list gives the same usage and an empty log. *)
Theorem getUsageByQueue_log (pods : list Pod) :
  exists usage,
    getUsageByQueue Queue pods
    = (anomaly <$> filter (fun pod => ~ has_queue Queue pod) pods, Returned usage) /\
    getUsageByQueue Queue (filter (has_queue Queue) pods) = ([], Returned usage).
Proof. apply getUsageByQueue_loop_log. Qed.

Lemma reports_of_map (l : list (string * ComputeResources)) (acc : list QueueReport) :
  foldl (fun queueReports '(queueName, queueUsage) =>
           queueReports ++
             [ {| QueueReport_Name := queueName;
                  QueueReport_Resources := queueUsage |} ]) acc l
  = acc ++ ((fun '(queueName, queueUsage) =>
               {| QueueReport_Name := queueName;
                  QueueReport_Resources := queueUsage |}) <$> l).
Proof.
  revert acc. induction l as [|[q u] l IH]; intros acc; simpl.
  - by rewrite app_nil_r.
  - by rewrite IH, <- app_assoc.
Qed.

Lemma createReportsOfQueueUsages_eq pods logged usage :
  getUsageByQueue Queue pods = (logged, Returned usage) ->
  createReportsOfQueueUsages Queue pods
  = (logged, Returned ((fun '(queueName, queueUsage) =>
                          {| QueueReport_Name := queueName;
                             QueueReport_Resources := queueUsage |})
                         <$> map_to_list usage)).
Proof.
  intros Hrun. unfold createReportsOfQueueUsages.
  rewrite Hrun, run_bind_returned. simpl.
  by rewrite app_nil_r, reports_of_map.
Qed.

(** X8. The queue reports name each queue once; a queue is reported exactly
    when some pod of the list carries it, and its report holds the sum of
    the resources of those pods. *)
Theorem createReportsOfQueueUsages_reports (pods : list Pod) :
  exists logged reports,
    createReportsOfQueueUsages Queue pods = (logged, Returned reports) /\
    NoDup (QueueReport_Name <$> reports) /\
    (forall queue,
        queue ∈ (QueueReport_Name <$> reports)
        <-> pods_of_queue Queue queue pods <> []) /\
    (forall report name,
        report ∈ reports ->
        quantity (QueueReport_Resources report) name
        = total_quantity Pod_Resources
            (pods_of_queue Queue (QueueReport_Name report) pods) name).
Proof.
  destruct (getUsageByQueue_totals Queue pods) as (logged & usage & Hrun & Htot).
  exists logged. eexists. split; [by apply createReportsOfQueueUsages_eq|].
  assert (QueueReport_Name <$>
            ((fun '(queueName, queueUsage) =>
                {| QueueReport_Name := queueName;
                   QueueReport_Resources := queueUsage |})
               <$> map_to_list usage)
          = (map_to_list usage).*1) as Hnames.
  { rewrite <- list_fmap_compose. apply list_fmap_ext. by intros i [q u] _. }
  rewrite Hnames. split; [apply NoDup_fst_map_to_list|]. split.
  - intros queue. specialize (Htot queue). rewrite list_elem_of_fmap. split.
    + intros ([q u] & -> & Hin). apply elem_of_map_to_list in Hin.
      simpl in *. rewrite Hin in Htot. by destruct Htot.
    + intros Hne. destruct (usage !! queue) as [total|] eqn:Hu; [|done].
      exists (queue, total). split; [done|]. by apply elem_of_map_to_list.
  - intros report name Hin. apply list_elem_of_fmap in Hin as ([q u] & -> & Hin).
    apply elem_of_map_to_list in Hin. specialize (Htot q).
    rewrite Hin in Htot. simpl. by apply Htot.
Qed.

Lemma createReportsOfQueueUsages_returns pods :
  exists reports,
    createReportsOfQueueUsages Queue pods
    = (anomaly <$> filter (fun pod => ~ has_queue Queue pod) pods, Returned reports).
Proof.
  destruct (getUsageByQueue_log pods) as (usage & Hrun & _).
  eexists. by apply createReportsOfQueueUsages_eq.
Qed.

Lemma ReportClusterUtilisation_success svc now nodes pods :
  NodeLister svc Everything = (nodes, None) ->
  PodLister svc ManagedPodSelector = (pods, None) ->
  exists queues,
    createReportsOfQueueUsages Queue (FilterNonCompletedPods pods)
    = (anomaly <$> filter (fun pod => ~ has_queue Queue pod)
                     (FilterNonCompletedPods pods),
       Returned queues) /\
    let report :=
      {| ClusterId := ClientId svc;
         ReportTime := now;
         Queues := queues;
         ClusterCapacity :=
           CalculateTotalResource (filterAvailableProcessingNodes nodes) |} in
    ReportClusterUtilisation Queue svc now
    = ((anomaly <$> filter (fun pod => ~ has_queue Queue pod)
                      (FilterNonCompletedPods pods))
         ++ ReportUsage report :: report_failure (UsageClient svc report),
       Returned tt).
Proof.
  intros Hn Hp.
  destruct (createReportsOfQueueUsages_returns (FilterNonCompletedPods pods))
    as (queues & Hq).
  exists queues. split; [exact Hq|]. intros report.
  unfold ReportClusterUtilisation, getAllAvailableProcessingNodes,
    getAllActiveManagedPods.
  rewrite Hn, Hp, Hq, run_bind_returned. fold report.
  unfold reportUsage, log_Errorf, emit, report_failure.
  unfold mbind, mret, Run_bind, Run_ret, run_bind, run_ret.
  by destruct (UsageClient svc report).
Qed.

(** X9. When both listers answer, [ReportClusterUtilisation] hands the
    usage client one report: it carries the client id, the time read, the
    total capacity of the available processing nodes and the queue reports
    of the non-completed managed pods.  Before it, the log has the entries
    for those pods that carry no queue; after it, one entry more when the
    usage client answers with an error.  The call returns either way. *)
Theorem ReportClusterUtilisation_reports svc now nodes pods :
  NodeLister svc Everything = (nodes, None) ->
  PodLister svc ManagedPodSelector = (pods, None) ->
  exists queues,
    createReportsOfQueueUsages Queue (FilterNonCompletedPods pods)
    = (anomaly <$> filter (fun pod => ~ has_queue Queue pod)
                     (FilterNonCompletedPods pods),
       Returned queues) /\
    let report :=
      {| ClusterId := ClientId svc;
         ReportTime := now;
         Queues := queues;
         ClusterCapacity :=
           CalculateTotalResource (filterAvailableProcessingNodes nodes) |} in
    ReportClusterUtilisation Queue svc now
    = ((anomaly <$> filter (fun pod => ~ has_queue Queue pod)
                      (FilterNonCompletedPods pods))
         ++ ReportUsage report :: report_failure (UsageClient svc report),
       Returned tt).
Proof. apply ReportClusterUtilisation_success. Qed.

(** X10. Whatever the listers and the usage client answer,
    [ReportClusterUtilisation] returns: it neither panics nor ends the
    process, and it calls the usage client at most once. *)
Theorem ReportClusterUtilisation_returns svc now :
  outcome (ReportClusterUtilisation Queue svc now) = Returned tt /\
  (length (filter is_report (trace (ReportClusterUtilisation Queue svc now))) <= 1)%nat.
Proof.
  destruct (NodeLister svc Everything) as [nodes [err|]] eqn:Hn.
  - unfold ReportClusterUtilisation, getAllAvailableProcessingNodes.
    rewrite Hn. split; [reflexivity|]. simpl. lia.
  - destruct (PodLister svc ManagedPodSelector) as [pods [err|]] eqn:Hp.
    + unfold ReportClusterUtilisation, getAllAvailableProcessingNodes,
        getAllActiveManagedPods.
      rewrite Hn, Hp. split; [reflexivity|]. simpl. lia.
    + destruct (ReportClusterUtilisation_success svc now nodes pods Hn Hp)
        as (queues & _ & ->).
      split; [reflexivity|]. unfold trace. cbn [fst].
      rewrite filter_app, filter_cons.
      assert (filter is_report
                (anomaly <$> filter (fun pod => ~ has_queue Queue pod)
                               (FilterNonCompletedPods pods)) = []) as ->.
      { induction (filter _ (FilterNonCompletedPods pods)) as [|p l IH]; [done|].
        rewrite fmap_cons, filter_cons_False; [exact IH|]. by intros []. }
      simpl. destruct (UsageClient svc _); simpl; lia.
Qed.

End UsageMore.

(** ** Job-id extraction: nil identifiers *)

Section JobIdMore.
Import events.

(** X11. The error of [JobIdFromEvent] is nil exactly on the nine variants
    that carry a job id, and the identifier returned is nil exactly when
    such a variant's message has a nil [JobId]: a nil identifier never
    comes with an error, and an error never comes with a nil identifier. *)
Theorem JobIdFromEvent_nil_id (event : EventSequence_Event) :
  ((JobIdFromEvent event).2 = None
   <-> exists id, carries_job_id (Event event) id) /\
  ((JobIdFromEvent event).1 = None
   <-> carries_job_id (Event event) None).
Proof.
  destruct event as [e]; cbn [Event].
  assert (forall m c, (forall m', carries_job_id (c m') (JobId m')) ->
                      (forall id, carries_job_id (c m) id -> id = JobId m) ->
                      (JobId m = None <-> carries_job_id (c m) None)) as Hnil.
  { intros m c Hc Hinv. split.
    - intros Hm. rewrite <- Hm. apply Hc.
    - intros H. by rewrite <- (Hinv _ H). }
  destruct e as [m|m|m|m|m|m|m|m|m| |name]; simpl;
    try (split;
         [ split; [intros _; eexists; constructor | done]
         | apply (Hnil m); [constructor | intros id H; by inversion H] ]).
  - split; (split; [done|]).
    + intros [id H]. inversion H.
    + intros H. inversion H.
  - split; (split; [done|]).
    + intros [id H]. inversion H.
    + intros H. inversion H.
Qed.

End JobIdMore.

(** ** The server: authentication, outcomes of [Serve], what is wired *)

Section WiringMore.
Import armada armada_view.

Lemma createServer_cases config world :
  createServer config world
  = ([],
     match openid_failure config world with
     | Some err => Panicked err
     | None =>
         match kerberos_failure config world with
         | Some err => Panicked err
         | None =>
             let services :=
               (if (0 <? size (BasicAuth_Users config))%nat
                then [BasicAuthService (BasicAuth_Users config)] else [])
               ++ (if String.eqb (OpenIdAuth_ProviderUrl config) "" then []
                   else [OpenIdAuthService (OpenIdAuth_ProviderUrl config)])
               ++ (if AnonymousAuth config then [AnonymousAuthService] else [])
               ++ (if String.eqb (Kerberos_KeytabLocation config) "" then []
                   else [KerberosAuthService (Kerberos_KeytabLocation config)]) in
             Returned {| MaxConnectionIdle := 5 * Minute;
                         streamInterceptors := [grpc_auth services; grpc_prometheus];
                         unaryInterceptors := [grpc_auth services; grpc_prometheus] |}
         end
     end).
Proof.
  unfold createServer, openid_failure, kerberos_failure.
  destruct (0 <? size (BasicAuth_Users config))%nat;
    destruct (String.eqb (OpenIdAuth_ProviderUrl config) ""); simpl;
    try destruct (NewOpenIdAuthServiceForProvider world _); simpl; try reflexivity;
    destruct (AnonymousAuth config);
    destruct (String.eqb (Kerberos_KeytabLocation config) ""); simpl;
    try destruct (NewKerberosAuthService world _); reflexivity.
Qed.


(** X13. In the server [createServer] returns, the unary and the stream
    chain are the same two interceptors, authentication before metrics.
    The authentication services come in the fixed order basic, OpenId,
    anonymous, Kerberos, each at most once, each present exactly when it is
    configured; so Kerberos, when configured, is the last one. *)
Theorem createServer_auth_order config world server :
  outcome (createServer config world) = Returned server ->
  unaryInterceptors server = [grpc_auth (auth_services server); grpc_prometheus] /\
  streamInterceptors server = unaryInterceptors server /\
  StronglySorted lt (auth_rank <$> auth_services server) /\
  (BasicAuthService (BasicAuth_Users config) ∈ auth_services server
   <-> (0 < size (BasicAuth_Users config))%nat) /\
  (OpenIdAuthService (OpenIdAuth_ProviderUrl config) ∈ auth_services server
   <-> OpenIdAuth_ProviderUrl config <> "") /\
  (AnonymousAuthService ∈ auth_services server <-> AnonymousAuth config = true) /\
  (KerberosAuthService (Kerberos_KeytabLocation config) ∈ auth_services server
   <-> Kerberos_KeytabLocation config <> "") /\
  (Kerberos_KeytabLocation config <> "" ->
   last (auth_services server)
   = Some (KerberosAuthService (Kerberos_KeytabLocation config))).
Proof.
  rewrite createServer_cases. unfold outcome. cbn [snd].
  destruct (openid_failure config world); [discriminate|].
  destruct (kerberos_failure config world); [discriminate|].
  intros [= <-]. unfold auth_services. cbn [unaryInterceptors streamInterceptors].
  destruct (0 <? size (BasicAuth_Users config))%nat eqn:Hb;
    [apply Nat.ltb_lt in Hb | apply Nat.ltb_ge in Hb];
    (destruct (String.eqb (OpenIdAuth_ProviderUrl config) "") eqn:Ho;
     [apply String.eqb_eq in Ho | apply String.eqb_neq in Ho]);
    (destruct (AnonymousAuth config) eqn:Ha);
    (destruct (String.eqb (Kerberos_KeytabLocation config) "") eqn:Hk;
     [apply String.eqb_eq in Hk | apply String.eqb_neq in Hk]);
    simpl;
    (split; [reflexivity|]); (split; [reflexivity|]);
    (split; [repeat constructor; lia|]);
    repeat split; intros; try done; try lia;
    rewrite ?elem_of_cons, ?elem_of_nil in *; intuition congruence.
Qed.

End WiringMore.

Section WiringOutcomes.
Import armada armada_view.

Lemma selectEventStore_cases config world redis :
  (exists t es stopSubscription,
      selectEventStore config world redis = (t, Returned (es, stopSubscription)) /\
      selected config world redis t es stopSubscription) \/
  (exists err,
      nats_chosen config /\
      nats_connect_result config world = Some err /\
      selectEventStore config world redis
      = ([StanConnect (conn_clusterID (nats_conn config world))
            (conn_clientID (nats_conn config world))
            (conn_url (nats_conn config world))], Panicked err)).
Proof.
  destruct (selectEventStore config world redis) as [t [[es stopSub]|err|code]] eqn:Hsel.
  - left. exists t, es, stopSub. split; [done|].
    by apply selectEventStore_returned.
  - right. exists err. revert Hsel. unfold selectEventStore.
    destruct (0 <? length (Brokers (EventsKafka config)))%nat eqn:Hb;
      [cbn -[Z.mul Millisecond]; discriminate|].
    apply len_zero in Hb.
    destruct (0 <? length (Servers (EventsNats config)))%nat eqn:Hs;
      [|cbn; discriminate].
    apply len_positive in Hs.
    cbn -[strings_Join String.append].
    destruct (stan_Connect world _ _ _) eqn:Hc;
      cbn -[strings_Join String.append]; [|discriminate].
    intros [= <- <-]. split; [by split|]. split; [exact Hc|reflexivity].
  - exfalso. revert Hsel. unfold selectEventStore.
    destruct (0 <? length (Brokers (EventsKafka config)))%nat;
      [cbn -[Z.mul Millisecond]; discriminate|].
    destruct (0 <? length (Servers (EventsNats config)))%nat; [|cbn; discriminate].
    cbn -[strings_Join String.append].
    destruct (stan_Connect world _ _ _);
      cbn -[strings_Join String.append]; discriminate.
Qed.

(** Every way through [Serve]. *)
Lemma Serve_cases config world :
  (exists err,
      outcome (createServer config world) = Panicked err /\
      Serve config world = ([], Panicked err)) \/
  (exists server err,
      outcome (createServer config world) = Returned server /\
      nats_chosen config /\
      nats_connect_result config world = Some err /\
      Serve config world
      = ([StanConnect (conn_clusterID (nats_conn config world))
            (conn_clientID (nats_conn config world))
            (conn_url (nats_conn config world))], Panicked err)) \/
  (exists server t es stopSubscription,
      outcome (createServer config world) = Returned server /\
      selected config world (RedisEventRepository (EventRetention config))
        t es stopSubscription /\
      match net_Listen world (GrpcPort config) with
      | Some err =>
          Serve config world
          = (t ++ steps_until_listen config es ++ [listen_failure err], Exited 1)
      | None =>
          Serve config world
          = (t ++ wiring_steps config server es,
             Returned (stopSubscription ;; emit (TaskStopAll (Second * 2)) ;;
                       emit GrpcGracefulStop,
                       {| counter := 1 |}))
      end).
Proof.
  unfold Serve.
  destruct (createServer_outcome config world) as [[server Hs]|[err Hs]];
    rewrite Hs; [|left; by exists err].
  right. unfold mbind at 1, Run_bind at 1, run_bind at 1.
  destruct (selectEventStore_cases config world
              (RedisEventRepository (EventRetention config)))
    as [(t & es & stopSub & Hsel & Hcase)|(err & Hn & Hc & Hsel)];
    rewrite Hsel.
  - right. exists server, t, es, stopSub. split; [done|]. split; [done|].
    unfold mbind at 1, Run_bind at 1, run_bind at 1.
    by destruct (net_Listen world (GrpcPort config)) as [err|].
  - left. by exists server, err.
Qed.

Lemma selected_nats_connected config world redis t es stopSubscription :
  selected config world redis t es stopSubscription ->
  nats_chosen config -> nats_connect_result config world = None.
Proof.
  intros Hsel [Hb Hn]. destruct Hsel as [Hb'|conn _ _ -> Hc|_ Hn']; try done.
Qed.



(** X16. When an authentication service cannot be set up, [Serve] panics
    with that error before doing anything else: no broker is contacted, no
    server built, no task registered. *)
Theorem Serve_auth_panic config world err :
  outcome (createServer config world) = Panicked err ->
  Serve config world = ([], Panicked err).
Proof.
  intros Hcreate.
  destruct (Serve_cases config world)
    as [(err' & Hs & HS)|[(server' & err' & Hs & Hn & Hc & HS)
                         |(server' & t & es & stopSub & Hs & Hsel & HS)]];
    rewrite Hcreate in Hs; by simplify_eq.
Qed.

(** X17. When NATS is the backend [Serve] goes for and the connection
    cannot be made, [Serve] panics with the connection error; the attempt
    to connect is all it has done: no processor started, no server built,
    no task registered. *)
Theorem Serve_nats_panic config world server err :
  outcome (createServer config world) = Returned server ->
  nats_chosen config ->
  nats_connect_result config world = Some err ->
  Serve config world
  = ([StanConnect (ClusterID (EventsNats config))
        ("armada-server-" +:+ NewULID world)
        (strings_Join (Servers (EventsNats config)) ",")],
     Panicked err).
Proof.
  intros Hcreate Hn Hc.
  destruct (Serve_cases config world)
    as [(err' & Hs & HS)|[(server' & err' & Hs & Hn' & Hc' & HS)
                         |(server' & t & es & stopSub & Hs & Hsel & HS)]].
  - rewrite Hcreate in Hs. discriminate.
  - rewrite Hc in Hc'. injection Hc' as <-. exact HS.
  - rewrite (selected_nats_connected _ _ _ _ _ _ Hsel Hn) in Hc. discriminate.
Qed.

(** X18. Whichever event store is chosen, the event server reads from the
    Redis event repository: a [Serve] that returns builds exactly one event
    server, on the Redis repository with the configured retention. *)
Theorem Serve_event_server_reads_redis config world stop wg :
  outcome (Serve config world) = Returned (stop, wg) ->
  omap event_repository_of (trace (Serve config world))
  = [RedisEventRepository (EventRetention config)].
Proof.
  intros Hret.
  destruct (Serve_returned config world stop wg Hret)
    as (server & t & es & stopSub & Hsel & -> & _).
  by destruct Hsel.
Qed.

(** X19. [Serve] never touches a backend it has not chosen, however it
    ends: with Kafka brokers configured nothing of NATS happens; without
    them nothing of Kafka happens; and with neither configured nothing of
    NATS happens either. *)
Theorem Serve_other_backends_untouched config world :
  (Brokers (EventsKafka config) <> [] ->
   filter is_nats_action (trace (Serve config world)) = []) /\
  (Brokers (EventsKafka config) = [] ->
   filter is_kafka_action (trace (Serve config world)) = []) /\
  (Brokers (EventsKafka config) = [] -> Servers (EventsNats config) = [] ->
   filter is_nats_action (trace (Serve config world)) = []).
Proof.
  destruct (Serve_cases config world)
    as [(err & Hs & HS)|[(server & err & Hs & [Hb Hn] & Hc & HS)
                        |(server & t & es & stopSub & Hs & Hsel & HS)]].
  - rewrite HS. by repeat split.
  - rewrite HS. by repeat split.
  - assert (exists rest outcome,
               Serve config world = (t ++ rest, outcome) /\
               filter is_nats_action rest = [] /\
               filter is_kafka_action rest = []) as (rest & o & -> & Hr1 & Hr2).
    { destruct (net_Listen world (GrpcPort config)); eexists _, _;
        (split; [exact HS|]); by split. }
    unfold trace. cbn [fst]. rewrite !filter_app, Hr1, Hr2, !app_nil_r.
    destruct Hsel as [Hb|conn Hb Hn Hconn Hc|Hb Hn]; by repeat split.
Qed.

(** X20. A [Serve] that returns has registered the lease-expiry task once,
    under the name "lease_expiry" and with the configured interval; the
    only other task is the Kafka processor, registered before it, and only
    when Kafka is the event store. *)
Theorem Serve_tasks_registered config world stop wg :
  outcome (Serve config world) = Returned (stop, wg) ->
  filter is_task_register (trace (Serve config world))
  = match Brokers (EventsKafka config) with
    | [] => []
    | _ :: _ =>
        [TaskRegister KafkaProcessEvents (100 * Millisecond) "kafka_redis_processor"]
    end
    ++ [TaskRegister ExpireLeases (ExpiryLoopInterval (Scheduling_Lease config))
          "lease_expiry"].
Proof.
  intros Hret.
  destruct (Serve_returned config world stop wg Hret)
    as (server & t & es & stopSub & Hsel & -> & _).
  destruct Hsel as [Hb|conn Hb Hn Hconn Hc|Hb Hn].
  - by destruct (Brokers (EventsKafka config)).
  - by rewrite Hb.
  - by rewrite Hb.
Qed.

(** X21. When closing the NATS connection fails at shutdown, the stop
    closure writes the error to the log and goes on: the task manager is
    still stopped and the server still stopped gracefully, and the closure
    returns. *)
Theorem Serve_stop_close_failure config world stop wg err :
  outcome (Serve config world) = Returned (stop, wg) ->
  nats_chosen config ->
  conn_Close world = Some err ->
  stop = ([ NatsConnClose (nats_conn config world);
            Log ErrorLevel "failed to close nats connection: %v" [ArgError err];
            TaskStopAll (2 * Second);
            GrpcGracefulStop ], Returned tt).
Proof.
  intros Hret [Hb Hn] Hclose.
  destruct (Serve_returned config world stop wg Hret)
    as (server & t & es & stopSub & Hsel & _ & ->).
  destruct Hsel as [Hb'|conn _ _ -> Hc|_ Hn']; [done| |done].
  by rewrite Hclose.
Qed.

End WiringOutcomes.

(** ** The further properties on sample inputs *)

Section AccountingMoreSamples.
Import service service_view.

Lemma GetAvailableClusterCapacity_failure_witness :
  exists err,
    (snd (NodeLister sample.cluster_pods_unreadable Everything) = Some err \/
     snd (NodeLister sample.cluster_pods_unreadable Everything) = None /\
     snd (PodLister sample.cluster_pods_unreadable Everything) = Some err) /\
    GetAvailableClusterCapacity sample.is_managed sample.cluster_pods_unreadable
    = (∅, Some ("Failed getting available cluster capacity due to: " +:+ err)).
Proof.
  apply (GetAvailableClusterCapacity_failure sample.is_managed
           sample.cluster_pods_unreadable).
  right. simpl. discriminate.
Defined.

Lemma pods_selection_depends_on_names_witness :
  getAllPodsRequiringResourceOnProcessingNodes sample.is_managed sample.pods
    [sample.node_a]
  = getAllPodsRequiringResourceOnProcessingNodes sample.is_managed sample.pods
      [sample.node_a; sample.node_a].
Proof.
  apply (pods_selection_depends_on_names sample.is_managed sample.pods
           [sample.node_a] [sample.node_a; sample.node_a]).
  intros name. simpl. rewrite !elem_of_cons. tauto.
Defined.

Lemma available_capacity_one_pod_witness :
  quantity (GetAvailableClusterCapacity sample.is_managed
              (sample.cluster_of ([sample.pod_1] ++ sample.pod_2 :: [sample.pod_done]))).1
    "cpu"
  = quantity (GetAvailableClusterCapacity sample.is_managed
                (sample.cluster_of ([sample.pod_1] ++ [sample.pod_done]))).1 "cpu"
    - (if decide (counted sample.is_managed sample.nodes sample.pod_2)
       then quantity (Pod_Resources sample.pod_2) "cpu" else 0).
Proof.
  apply (available_capacity_one_pod sample.is_managed
           (sample.cluster_of ([sample.pod_1] ++ [sample.pod_done]))
           (sample.cluster_of ([sample.pod_1] ++ sample.pod_2 :: [sample.pod_done]))
           sample.nodes [sample.pod_1] [sample.pod_done] sample.pod_2 "cpu");
    reflexivity.
Defined.

Lemma getUsageByQueue_permutation_witness :
  exists logged logged' usage,
    getUsageByQueue sample.queue_label
      [sample.pod_unlabelled; sample.pod_1; sample.pod_2]
    = (logged, Returned usage) /\
    getUsageByQueue sample.queue_label
      [sample.pod_1; sample.pod_unlabelled; sample.pod_2]
    = (logged', Returned usage) /\
    logged ≡ₚ logged'.
Proof.
  apply (getUsageByQueue_permutation sample.queue_label
           [sample.pod_unlabelled; sample.pod_1; sample.pod_2]
           [sample.pod_1; sample.pod_unlabelled; sample.pod_2]).
  apply perm_swap.
Defined.

Lemma ReportClusterUtilisation_reports_witness :
  exists queues,
    createReportsOfQueueUsages sample.queue_label
      (FilterNonCompletedPods (List.filter sample.is_managed sample.pods))
    = (anomaly <$> filter (fun pod => ~ has_queue sample.queue_label pod)
                     (FilterNonCompletedPods
                        (List.filter sample.is_managed sample.pods)),
       Returned queues) /\
    let report :=
      {| ClusterId := ClientId (sample.cluster_of sample.pods);
         ReportTime := 1600000000;
         Queues := queues;
         ClusterCapacity :=
           CalculateTotalResource (filterAvailableProcessingNodes sample.nodes) |} in
    ReportClusterUtilisation sample.queue_label (sample.cluster_of sample.pods)
      1600000000
    = ((anomaly <$> filter (fun pod => ~ has_queue sample.queue_label pod)
                      (FilterNonCompletedPods
                         (List.filter sample.is_managed sample.pods)))
         ++ ReportUsage report
              :: report_failure (UsageClient (sample.cluster_of sample.pods) report),
       Returned tt).
Proof.
  apply (ReportClusterUtilisation_reports sample.queue_label
           (sample.cluster_of sample.pods) 1600000000 sample.nodes
           (List.filter sample.is_managed sample.pods)); reflexivity.
Defined.

(** The usage client answers with an error: the report is still the one
    action between the log entries. *)
Example sample_report_failure :
  exists report,
    ReportClusterUtilisation sample.queue_label (sample.cluster_of sample.pods)
      1600000000
    = ([ReportUsage report;
        Log ErrorLevel "Failed to report cluster usage because deadline exceeded"],
       Returned tt) /\
    (QueueReport_Name <$> Queues report = ["alpha"; "beta"] \/
     QueueReport_Name <$> Queues report = ["beta"; "alpha"]).
Proof.
  eexists. split; [reflexivity|].
  vm_compute. first [by left | by right].
Qed.

End AccountingMoreSamples.

Section WiringMoreSamples.
Import armada armada_view.

Lemma createServer_auth_order_witness :
  let server := sample.server_of (createServer sample.config_all_auth sample.world) in
  unaryInterceptors server = [grpc_auth (auth_services server); grpc_prometheus] /\
  streamInterceptors server = unaryInterceptors server /\
  StronglySorted lt (auth_rank <$> auth_services server) /\
  (BasicAuthService (BasicAuth_Users sample.config_all_auth) ∈ auth_services server
   <-> (0 < size (BasicAuth_Users sample.config_all_auth))%nat) /\
  (OpenIdAuthService (OpenIdAuth_ProviderUrl sample.config_all_auth)
     ∈ auth_services server
   <-> OpenIdAuth_ProviderUrl sample.config_all_auth <> "") /\
  (AnonymousAuthService ∈ auth_services server
   <-> AnonymousAuth sample.config_all_auth = true) /\
  (KerberosAuthService (Kerberos_KeytabLocation sample.config_all_auth)
     ∈ auth_services server
   <-> Kerberos_KeytabLocation sample.config_all_auth <> "") /\
  (Kerberos_KeytabLocation sample.config_all_auth <> "" ->
   last (auth_services server)
   = Some (KerberosAuthService (Kerberos_KeytabLocation sample.config_all_auth))).
Proof.
  apply (createServer_auth_order sample.config_all_auth sample.world
           (sample.server_of (createServer sample.config_all_auth sample.world))).
  reflexivity.
Defined.

Example sample_all_auth :
  auth_services (sample.server_of (createServer sample.config_all_auth sample.world))
  = [ BasicAuthService {[ "alice" := "secret" ]};
      OpenIdAuthService "https://id.example";
      AnonymousAuthService;
      KerberosAuthService "/etc/armada.keytab" ].
Proof. reflexivity. Qed.


Lemma Serve_auth_panic_witness :
  Serve sample.config_all_auth sample.world_nats_away
  = ([], Panicked "oidc: provider unreachable").
Proof.
  apply (Serve_auth_panic sample.config_all_auth sample.world_nats_away
           "oidc: provider unreachable").
  reflexivity.
Defined.

Lemma Serve_nats_panic_witness :
  Serve sample.config_nats sample.world_nats_away
  = ([StanConnect (ClusterID (EventsNats sample.config_nats))
        ("armada-server-" +:+ NewULID sample.world_nats_away)
        (strings_Join (Servers (EventsNats sample.config_nats)) ",")],
     Panicked "stan: connect request timeout").
Proof.
  apply (Serve_nats_panic sample.config_nats sample.world_nats_away
           (sample.server_of (createServer sample.config_nats sample.world_nats_away))
           "stan: connect request timeout").
  - reflexivity.
  - split; [reflexivity | discriminate].
  - reflexivity.
Defined.

Lemma Serve_event_server_reads_redis_witness :
  omap event_repository_of (trace (Serve sample.config_both sample.world))
  = [RedisEventRepository (EventRetention sample.config_both)].
Proof.
  apply (Serve_event_server_reads_redis sample.config_both sample.world
           (sample.stop_of (Serve sample.config_both sample.world)).1
           (sample.stop_of (Serve sample.config_both sample.world)).2).
  reflexivity.
Defined.

Lemma Serve_tasks_registered_witness :
  filter is_task_register (trace (Serve sample.config_both sample.world))
  = match Brokers (EventsKafka sample.config_both) with
    | [] => []
    | _ :: _ =>
        [TaskRegister KafkaProcessEvents (100 * Millisecond) "kafka_redis_processor"]
    end
    ++ [TaskRegister ExpireLeases
          (ExpiryLoopInterval (Scheduling_Lease sample.config_both)) "lease_expiry"].
Proof.
  apply (Serve_tasks_registered sample.config_both sample.world
           (sample.stop_of (Serve sample.config_both sample.world)).1
           (sample.stop_of (Serve sample.config_both sample.world)).2).
  reflexivity.
Defined.

Lemma Serve_stop_close_failure_witness :
  (sample.stop_of (Serve sample.config_nats sample.world_close_fails)).1
  = ([ NatsConnClose (nats_conn sample.config_nats sample.world_close_fails);
       Log ErrorLevel "failed to close nats connection: %v"
         [ArgError "nats: connection closed"];
       TaskStopAll (2 * Second);
       GrpcGracefulStop ], Returned tt).
Proof.
  apply (Serve_stop_close_failure sample.config_nats sample.world_close_fails
           (sample.stop_of (Serve sample.config_nats sample.world_close_fails)).1
           (sample.stop_of (Serve sample.config_nats sample.world_close_fails)).2
           "nats: connection closed").
  - reflexivity.
  - split; [reflexivity | discriminate].
  - reflexivity.
Defined.

End WiringMoreSamples.

(** ** Taints other than NoSchedule *)

Section TaintsMore.
Import service.

(** X22. Only the NoSchedule effect closes a node: a node that is not
    marked unschedulable and whose taints all have the effect NoExecute or
    PreferNoSchedule is an available processing node, and is kept by the
    node filter. *)
Theorem other_taints_do_not_exclude (node : Node) (nodes : list Node) :
  Node_Unschedulable node = false ->
  Forall (fun taint => Effect taint = "NoExecute" \/
                       Effect taint = "PreferNoSchedule") (Node_Taints node) ->
  isAvailableProcessingNode node = true /\
  filterAvailableProcessingNodes (nodes ++ [node])
  = filterAvailableProcessingNodes nodes ++ [node].
Proof.
  intros Hu Htaints.
  assert (available_processing_node node) as Havail.
  { split; [exact Hu|]. eapply Forall_impl; [exact Htaints|].
    intros taint [He|He]; rewrite He; unfold TaintEffectNoSchedule; discriminate. }
  split; [by apply isAvailableProcessingNode_spec|].
  rewrite !filterAvailableProcessingNodes_spec. unfold spec_processing_nodes.
  by rewrite filter_app, filter_cons_True.
Qed.

Lemma other_taints_do_not_exclude_witness :
  isAvailableProcessingNode sample.node_evicting = true /\
  filterAvailableProcessingNodes (sample.nodes ++ [sample.node_evicting])
  = filterAvailableProcessingNodes sample.nodes ++ [sample.node_evicting].
Proof.
  apply (other_taints_do_not_exclude sample.node_evicting sample.nodes).
  - reflexivity.
  - constructor; [by left|]. constructor; [by right|]. constructor.
Defined.

End TaintsMore.
